(** * Jiu-Jitsu Genie: flow-chart navigation, prompt builders, flow
      controller and video segment extraction

    A shallow embedding of [.streamlit/Jiu-Jitsu functions.py] and
    [.streamlit/app.py].

    Python values are modelled as follows.
    - [str] is [string], one [ascii] per code point; the development covers
      the strings whose code points are below 256.
    - [int] is [Z] (unbounded).
    - [None] / a value is [option].
    - A call that may raise returns an [outcome]. *)

From Stdlib Require Import String Ascii List Bool Arith ZArith Lia SpecFloat.
From Stdlib Require QArith Qround.
Import ListNotations.
Local Open Scope string_scope.

(** ** Python [str] primitives *)

Module PyStr.

(** Code points for which [str.isspace] holds, below 256:
    U+0009..U+000D, U+001C..U+0020, U+0085 and U+00A0. *)
Definition isspace (c : ascii) : bool :=
  let n := nat_of_ascii c in
  (((9 <=? n) && (n <=? 13)) || ((28 <=? n) && (n <=? 32))
   || (n =? 133) || (n =? 160))%nat.

(** [s[n:]] *)
Fixpoint drop (n : nat) (s : string) : string :=
  match n, s with
  | O, _ => s
  | S _, EmptyString => EmptyString
  | S k, String _ s' => drop k s'
  end.

(** [s.startswith(p)] *)
Fixpoint startswith (p s : string) : bool :=
  match p, s with
  | EmptyString, _ => true
  | String _ _, EmptyString => false
  | String a p', String b s' => Ascii.eqb a b && startswith p' s'
  end.

(** [sub in s] *)
Fixpoint contains (sub s : string) : bool :=
  startswith sub s ||
  match s with
  | EmptyString => false
  | String _ s' => contains sub s'
  end.

(** [s.partition(sep)], with [None] when [sep] does not occur: the text
    before the leftmost occurrence of [sep] and the text after it. *)
Fixpoint partition (sep s : string) : option (string * string) :=
  if startswith sep s then Some (EmptyString, drop (String.length sep) s)
  else match s with
       | EmptyString => None
       | String c s' =>
           match partition sep s' with
           | Some (a, b) => Some (String c a, b)
           | None => None
           end
       end.

(** [s.split(sep)] for a non-empty [sep] (every call site passes a
    non-empty literal): cut at the leftmost occurrence, continue on the
    rest.  The rest is strictly shorter, so [String.length s] rounds are enough. *)
Fixpoint split_rounds (rounds : nat) (sep s : string) : list string :=
  match partition sep s with
  | None => [s]
  | Some (a, b) =>
      match rounds with
      | O => [s]
      | S r => a :: split_rounds r sep b
      end
  end.

Definition split (sep s : string) : list string :=
  split_rounds (String.length s) sep s.

(** [s.lstrip()], [s.rstrip()], [s.strip()] *)
Fixpoint lstrip (s : string) : string :=
  match s with
  | EmptyString => EmptyString
  | String c s' => if isspace c then lstrip s' else s
  end.

Fixpoint rstrip (s : string) : string :=
  match s with
  | EmptyString => EmptyString
  | String c s' =>
      match rstrip s' with
      | EmptyString => if isspace c then EmptyString else String c EmptyString
      | r => String c r
      end
  end.

Definition strip (s : string) : string := rstrip (lstrip s).

(** Truthiness of a [str]: non-empty. *)
Definition truthy (s : string) : bool :=
  match s with EmptyString => false | _ => true end.

(** [s.replace(old, new)] for a non-empty [old]: the occurrences of [old]
    are found from the left, without overlap, as [split] finds them. *)
Fixpoint replace_rounds (rounds : nat) (old new s : string) : string :=
  match partition old s with
  | None => s
  | Some (a, b) =>
      match rounds with
      | O => s
      | S r => a ++ new ++ replace_rounds r old new b
      end
  end.

Definition replace (old new s : string) : string :=
  replace_rounds (String.length s) old new s.

Definition LF : ascii := ascii_of_nat 10.
Definition nl : string := String LF EmptyString.
Definition dquote : string := String (ascii_of_nat 34) EmptyString.

End PyStr.
Import PyStr.

(** ** Exceptions and outcomes *)

(** The exceptions the modelled code can meet; all of them derive from
    Python's [Exception], so [except Exception] catches each. *)
Inductive exn : Type :=
| ValueError (msg : string)
| OverflowError (msg : string)
| ServiceError (msg : string)
| Cv2Error (msg : string)
| OSError (msg : string).

(** [str(e)] *)
Definition str_exn (e : exn) : string :=
  match e with
  | ValueError m | OverflowError m | ServiceError m | Cv2Error m
  | OSError m => m
  end.

Inductive outcome (A : Type) : Type :=
| Return (a : A)
| Raise (e : exn).
Arguments Return {A} a.
Arguments Raise {A} e.

(** The generative AI client ([genai.GenAI]), an external collaborator:
    every call either returns or raises.  A call stands for building the
    client from the API key and calling the method. *)
Record GenAI : Type := {
  generate_text : string -> outcome string;
  generate_image_description : string -> string -> outcome string;
  generate_video_description : string -> string -> outcome string;
  generate_image : string -> outcome (string * string)
}.

(** ** [Jiu-Jitsu functions.py] *)

Module Functions.

(** [match_type = "MMA" if isMMA else "Jiu-jitsu"] *)
Definition match_type (isMMA : bool) : string :=
  if isMMA then "MMA" else "Jiu-jitsu".

(** The prompt built by [generate_grappling_plan]. *)
Definition generate_grappling_plan_prompt
    (player_variable : string) (isMMA : bool) (keywords : string) : string :=
  let prompt := "the image is a still frame from a grappling match. The match has "
                ++ match_type isMMA ++ " rules. " in
  let prompt := prompt ++ "I want you to analyze: " ++ player_variable
                ++ ", and provide three options for the next immediate steps " in
  let prompt := prompt ++ "towards grappling moves that would work best for them given their current position. " in
  let prompt := prompt ++ "I want these steps to be listed in quick bullet format like ex: "
                ++ dquote ++ "1) <<step>> : towards <<move>>, 2) ..." ++ dquote ++ ". " in
  let prompt := prompt ++ "Base the recommendations on historical MMA and Jiu-jitsu match performance. " in
  if truthy keywords
  then prompt ++ "I want you to also take special note of the following keywords for your image and recommendation analysis: " ++ keywords
  else prompt.

Definition generate_grappling_plan (genai : GenAI)
    (image player_variable : string) (isMMA : bool) (keywords : string)
    : outcome string :=
  generate_image_description genai image
    (generate_grappling_plan_prompt player_variable isMMA keywords).

(** The prompt built by [analyse_grappling_match]. *)
Definition analyse_grappling_match_prompt
    (player_variable : string) (isMMA : bool) (keywords : string) : string :=
  let prompt := "these images are frames from a grappling match. The match has "
                ++ match_type isMMA ++ " rules. " in
  let prompt := prompt ++ "I want you to analyze: " ++ player_variable
                ++ ", and provide an analysis of what went right or wrong " in
  let prompt := prompt ++ "during the match, along with some recommendations for the "
                ++ player_variable ++ " in their next match. " in
  let prompt := prompt ++ "I want these recommendations to be listed in a quick summary format. " in
  let prompt := prompt ++ "Base the recommendations on the athlete's body type, jiu-jitsu guard situation, and historical " in
  let prompt := prompt ++ "MMA and Jiu-jitsu match performance. " in
  if truthy keywords
  then prompt ++ "I want you to also take special note of the following keywords for your analysis: " ++ keywords
  else prompt.

(** [start_time] and [end_time] only guard a [pass]: the whole video is
    analysed. *)
Definition analyse_grappling_match (genai : GenAI)
    (video player_variable : string) (isMMA : bool) (keywords : string)
    : outcome string :=
  let video_to_analyze := video in
  generate_video_description genai video_to_analyze
    (analyse_grappling_match_prompt player_variable isMMA keywords).

(** The prompt built by [generate_flow_chart]. *)
Definition generate_flow_chart_prompt
    (measurables position_variable : string) (isMMA : bool)
    (favorite_ideas : string) : string :=
  let prompt := "I want you to generate a Mermaid based radial visual flow chart of jiu-jitsu moves that will have the greatest likelihood " in
  let prompt := prompt ++ "of success for an athlete with the following measurables: "
                ++ measurables ++ ". " in
  let prompt := prompt ++ "I want this chart to focus on " ++ position_variable
                ++ " under the " ++ match_type isMMA ++ " ruleset" in
  let prompt :=
    if truthy favorite_ideas
    then prompt ++ ", and take into account that the athlete has the following ideas: " ++ favorite_ideas
    else prompt in
  prompt ++ " of the athlete. Could you label the flow arrows in the diagram using a description of the primary movement required to get to that bubble. Only return the mermaid object, and not any shoulder text whatsoever".

Definition generate_flow_chart (genai : GenAI)
    (measurables position_variable : string) (isMMA : bool)
    (favorite_ideas : string) : outcome string :=
  generate_text genai
    (generate_flow_chart_prompt measurables position_variable isMMA favorite_ideas).

(** The [for line in lines] loop of [next_move]; [new_position] is the
    loop-carried variable, and returning without recursion is [break]. *)
Fixpoint next_move_loop (move_text : string) (lines : list string)
    (new_position : option string) : option string :=
  match lines with
  | [] => new_position
  | line :: rest =>
      if contains move_text line && contains "-->" line then
        let parts := split "-->" line in
        if (2 <=? List.length parts)%nat then
          let target := strip (nth 1 parts EmptyString) in
          let new_position :=
            if contains "[" target
            then strip (nth 0 (split "[" target) EmptyString)
            else target in
          Some new_position
        else next_move_loop move_text rest new_position
      else next_move_loop move_text rest new_position
  end.

(** The node resolved by [next_move]: the value of [new_position] after
    the loop. *)
Definition resolve_next_node (flow_chart move_text : string) : option string :=
  let lines := split nl (strip flow_chart) in
  next_move_loop move_text lines None.

(** [if not new_position] holds for [None] and for the empty string. *)
Definition next_move (genai : GenAI)
    (flow_chart move_text measurables : string) (isMMA : bool)
    (favorite_ideas : string) : outcome string :=
  let new_position := resolve_next_node flow_chart move_text in
  match new_position with
  | None => Return flow_chart
  | Some p =>
      if negb (truthy p) then Return flow_chart
      else generate_flow_chart genai measurables p isMMA favorite_ideas
  end.

(** The prompt built by [get_attributes]. *)
Definition get_attributes_prompt (player_variable : string) : string :=
  let prompt := "Please analyze this grappling match image and provide an estimate of the "
                ++ player_variable ++ " athlete's " in
  let prompt := prompt ++ "height, weight, and build. Include details about their body type " in
  let prompt := prompt ++ "(such as endomorph, mesomorph, ectomorph), muscle mass distribution, limb length proportions, " in
  let prompt := prompt ++ "and any notable physical characteristics that might affect their performance in grappling. " in
  let prompt := prompt ++ "Present your analysis in a clear, concise format with estimates for height in feet/inches and cm, " in
  prompt ++ "weight in pounds and kg, and body type classification.".

Definition get_attributes (genai : GenAI) (image player_variable : string)
    : outcome string :=
  generate_image_description genai image (get_attributes_prompt player_variable).

(** [generate_mermaid]: the Markdown fences are removed when the opening
    fence is present, and the text is returned as it is otherwise. *)
Definition generate_mermaid (mermaid_object : string) : string :=
  if contains "```mermaid" mermaid_object
  then strip (replace "```" "" (replace "```mermaid" "" mermaid_object))
  else mermaid_object.

End Functions.

(** ** [app.py]: the FLOW Chart Generator screen *)

Module Flow.

(** [st.session_state] *)
Record session_state : Type := {
  current_image : option string;
  current_chat : list (string * string);
  current_flowchart : option string;
  current_video : option string;
  current_attributes : string
}.

Definition set_flowchart (st : session_state) (chart : string) : session_state :=
  {| current_image := current_image st;
     current_chat := current_chat st;
     current_flowchart := Some chart;
     current_video := current_video st;
     current_attributes := current_attributes st |}.

Definition set_attributes (st : session_state) (attributes : string)
    : session_state :=
  {| current_image := current_image st;
     current_chat := current_chat st;
     current_flowchart := current_flowchart st;
     current_video := current_video st;
     current_attributes := attributes |}.

(** What the script shows to the user. *)
Inductive ui : Type :=
| st_error (msg : string)
| st_warning (msg : string)
| st_success (msg : string)
| st_markdown (text : string)
| st_spinner (text : string)
| render_mermaid (chart : string).

(** One step of the script: the session state, what has been shown, and
    whether [st.experimental_rerun()] ended the run.  The rerun signal is
    not an [Exception], so the handlers' [except Exception] clauses let it
    through. *)
Record run : Type := {
  state : session_state;
  shown : list ui;
  rerun : bool
}.

(** Truthiness of an optional [str]. *)
Definition truthy_opt (s : option string) : bool :=
  match s with Some s => truthy s | None => false end.

(** Lines 225-233: the position attributes, refreshed on every run. *)
Definition analyze_attributes (genai : GenAI) (st : session_state)
    (position_variable : string) : string * run :=
  let attributes := EmptyString in
  match current_image st with
  | Some image =>
      if truthy image && truthy position_variable then
        match Functions.get_attributes genai image position_variable with
        | Return attributes =>
            (attributes,
             {| state := set_attributes st attributes;
                shown := [st_success "Position attributes analyzed!"];
                rerun := false |})
        | Raise e =>
            (attributes,
             {| state := st;
                shown := [st_warning ("Could not analyze position attributes: "
                                      ++ str_exn e)];
                rerun := false |})
        end
      else (attributes, {| state := st; shown := []; rerun := false |})
  | None => (attributes, {| state := st; shown := []; rerun := false |})
  end.

(** Lines 236-253: the body of [if st.button("Generate Flow Chart")]. *)
Definition generate_button (genai : GenAI) (st : session_state)
    (attributes position_variable : string) (isMMA : bool) (ideas : string)
    : run :=
  if negb (truthy position_variable) then
    {| state := st;
       shown := [st_error "Please enter a starting position"];
       rerun := false |}
  else
    match Functions.generate_flow_chart genai
            (if truthy attributes then attributes else current_attributes st)
            position_variable isMMA ideas with
    | Return flow_chart =>
        {| state := set_flowchart st flow_chart;
           shown := [st_spinner "Generating flow chart..."];
           rerun := false |}
    | Raise e =>
        {| state := st;
           shown := [st_spinner "Generating flow chart...";
                     st_error ("An error occurred: " ++ str_exn e)];
           rerun := false |}
    end.

(** Lines 263-290: the body of [if st.button("Flow") and chosen_next],
    entered with [current_flowchart] holding [flowchart]. *)
Definition flow_button (genai : GenAI) (st : session_state)
    (flowchart chosen_next : string) (isMMA : bool) (ideas : string) : run :=
  let found := contains chosen_next flowchart in
  if negb found then
    {| state := st;
       shown := [st_error "Osu! That move is not in the current flow chart. Try another move."];
       rerun := false |}
  else
    match Functions.next_move genai flowchart chosen_next
            (current_attributes st) isMMA ideas with
    | Return next_flowchart =>
        {| state := set_flowchart st next_flowchart;
           shown := [st_spinner "Generating next flow..."];
           rerun := true |}
    | Raise e =>
        {| state := st;
           shown := [st_spinner "Generating next flow...";
                     st_error ("An error occurred: " ++ str_exn e)];
           rerun := false |}
    end.

(** The user's inputs on the screen for one run of the script. *)
Record inputs : Type := {
  position_variable : string;
  rules : string;
  ideas : string;
  generate_clicked : bool;
  chosen_next : string;
  flow_clicked : bool
}.

(** Lines 216-290: one run of the screen. *)
Definition flow_chart_generator (genai : GenAI) (st : session_state)
    (i : inputs) : run :=
  let isMMA := String.eqb (rules i) "Unified MMA" in
  let '(attributes, r1) := analyze_attributes genai st (position_variable i) in
  let r2 :=
    if generate_clicked i
    then generate_button genai (state r1) attributes (position_variable i)
           isMMA (ideas i)
    else {| state := state r1; shown := []; rerun := false |} in
  let st2 := state r2 in
  let shown2 := (shown r1 ++ shown r2)%list in
  match current_flowchart st2 with
  | Some flowchart =>
      if truthy flowchart then
        let shown3 := (shown2 ++ [st_markdown "### Flow Chart";
                                  render_mermaid flowchart])%list in
        if flow_clicked i && truthy (chosen_next i) then
          let r3 := flow_button genai st2 flowchart (chosen_next i) isMMA (ideas i) in
          {| state := state r3; shown := (shown3 ++ shown r3)%list;
             rerun := rerun r3 |}
        else {| state := st2; shown := shown3; rerun := false |}
      else {| state := st2; shown := shown2; rerun := false |}
  | None => {| state := st2; shown := shown2; rerun := false |}
  end.

End Flow.

(** ** [app.py]: [load_masters] *)

Module Masters.

(** What opening and reading [masters.txt] gives: the lines the file
    yields, [FileNotFoundError], or another error. *)
Inductive file_read : Type :=
| Lines (lines : list string)
| FileNotFoundError
| ReadError (e : exn).

Definition default_masters : list string :=
  ["John Danaher"; "Rickson Gracie"; "Roger Gracie"; "Marcelo Garcia";
   "Gordon Ryan"; "Kyra Gracie"; "Helio Gracie"; "Carlos Gracie";
   "Eddie Bravo"; "Andre Galvao"; "Buchecha"; "Keenan Cornelius";
   "Bernardo Faria"; "Renzo Gracie"; "Jean Jacques Machado"].

(** [[line.strip() for line in file if line.strip()]], and the built-in
    list when the file is not found. *)
Definition load_masters (file : file_read) : outcome (list string) :=
  match file with
  | Lines lines =>
      Return (map strip (filter (fun line => truthy (strip line)) lines))
  | FileNotFoundError => Return default_masters
  | ReadError e => Raise e
  end.

End Masters.

(** ** [app.py]: the Position Image Recommendations screen *)

Module Recommend.

Import Flow.

(** Lines 130-150: the body of [if st.button("Generate Recommendations")];
    [image_location] is [None] until an image has been uploaded. *)
Definition generate_recommendations (genai : GenAI) (st : session_state)
    (image_location : option string) (position_variable : string)
    (isMMA : bool) (keywords : string) : run :=
  match image_location with
  | Some image =>
      if negb (truthy image) || negb (truthy position_variable)
         || negb (truthy keywords) then
        {| state := st;
           shown := [st_error "Please fill in all fields and upload an image"];
           rerun := false |}
      else
        match Functions.get_attributes genai image position_variable with
        | Return attributes =>
            let st' := set_attributes st attributes in
            let enhanced_keywords := keywords ++ " " ++ attributes in
            match Functions.generate_grappling_plan genai image
                    position_variable isMMA enhanced_keywords with
            | Return recommendations =>
                {| state := st';
                   shown :=
                     [st_spinner "Analyzing position and generating recommendations...";
                      st_markdown "### Recommendations";
                      st_markdown ("<div class=" ++ dquote ++ "highlight"
                                   ++ dquote ++ ">" ++ recommendations
                                   ++ "</div>")];
                   rerun := false |}
            | Raise e =>
                {| state := st';
                   shown :=
                     [st_spinner "Analyzing position and generating recommendations...";
                      st_error ("An error occurred: " ++ str_exn e)];
                   rerun := false |}
            end
        | Raise e =>
            {| state := st;
               shown :=
                 [st_spinner "Analyzing position and generating recommendations...";
                  st_error ("An error occurred: " ++ str_exn e)];
               rerun := false |}
        end
  | None =>
      {| state := st;
         shown := [st_error "Please fill in all fields and upload an image"];
         rerun := false |}
  end.

End Recommend.

(** ** [app.py]: the Master Talk screen *)

Module Talk.

Import Flow.

(** The chat client: [generate_text(prompt, instructions)] and
    [generate_chat_response(history, message, instructions)]. *)
Record Client : Type := {
  generate_text : string -> string -> outcome string;
  generate_chat_response :
    list (string * string) -> string -> string -> outcome string
}.

Definition instructions (master_info : string) : string :=
  "You are the jiu-jitsu master " ++ master_info
  ++ ". Have a conversation to me as this master and provide me troubleshooting help on my jiu-jitsu based on your fundamental principles of jiujitsu and notable successes.".

Definition opening_prompt : string :=
  "Start a conversation to help me with my jiu-jitsu".

Definition set_chat (st : session_state) (chat : list (string * string))
    : session_state :=
  {| current_image := current_image st;
     current_chat := chat;
     current_flowchart := current_flowchart st;
     current_video := current_video st;
     current_attributes := current_attributes st |}.

(** The user's inputs for one run; [has_key] tells whether
    [OPENAI_API_KEY] is in the environment. *)
Record inputs : Type := {
  master_info : string;
  has_key : bool;
  next_comment : string;
  send_clicked : bool;
  flow_clicked : bool
}.

(** One run: as [Flow.run], and the exception that ended the script, if
    one did (no handler on this screen catches any). *)
Record run : Type := {
  state : session_state;
  shown : list ui;
  rerun : bool;
  uncaught : option exn
}.

(** Lines 184-187: one message of the conversation as shown. *)
Definition show_message (master_info : string) (message : string * string)
    : list ui :=
  let '(role, content) := message in
  if String.eqb role "system" then []
  else
    let role := if String.eqb role "user" then "You"
                else "Master " ++ master_info in
    [st_markdown ("**" ++ role ++ "**: " ++ content)].

(** Lines 162-177: the conversation is opened when the chat is empty. *)
Definition open_chat (client : Client) (st : session_state) (i : inputs)
    : outcome session_state :=
  match current_chat st with
  | [] =>
      if has_key i then
        match generate_text client opening_prompt (instructions (master_info i)) with
        | Return initial_response =>
            Return (set_chat st
                      [("system", instructions (master_info i));
                       ("user", opening_prompt);
                       ("assistant", initial_response)])
        | Raise e => Raise e
        end
      else Return st
  | _ :: _ => Return st
  end.

(** Lines 153-213: one run of the screen. *)
Definition master_talk (client : Client) (st : session_state) (i : inputs)
    : run :=
  match open_chat client st i with
  | Raise e => {| state := st; shown := []; rerun := false; uncaught := Some e |}
  | Return st1 =>
      let conversation :=
        (st_markdown "### Conversation"
         :: flat_map (show_message (master_info i)) (current_chat st1))%list in
      if send_clicked i && truthy (next_comment i) && has_key i then
        match generate_chat_response client (current_chat st1) (next_comment i)
                (instructions (master_info i)) with
        | Return response =>
            {| state := set_chat st1
                          (current_chat st1
                           ++ [("user", next_comment i);
                               ("assistant", response)]);
               shown := conversation; rerun := true; uncaught := None |}
        | Raise e =>
            {| state := st1; shown := conversation; rerun := false;
               uncaught := Some e |}
        end
      else
        {| state := st1; shown := conversation;
           rerun := flow_clicked i; uncaught := None |}
  end.

(** The screen run once for each of a list of inputs, a run that ends on
    an exception included (the session goes on). *)
Fixpoint talk_runs (client : Client) (st : session_state)
    (history : list inputs) : session_state :=
  match history with
  | [] => st
  | i :: rest => talk_runs client (state (master_talk client st i)) rest
  end.

(** A conversation: the system message, then user and assistant messages
    in turn. *)
Fixpoint turns (chat : list (string * string)) : Prop :=
  match chat with
  | [] => True
  | (r1, _) :: (r2, _) :: rest => r1 = "user" /\ r2 = "assistant" /\ turns rest
  | _ => False
  end.

Definition well_formed (chat : list (string * string)) : Prop :=
  match chat with
  | [] => True
  | (r, _) :: rest => r = "system" /\ turns rest
  end.

End Talk.

(** ** [app.py]: the functions after the screens *)

(** Python [float] as far as the code uses it. *)
Class PyFloat (F : Type) : Type := {
  (** [x * y] *)
  fmul : F -> F -> F;
  (** [int(x)]: truncation, [ValueError] on a NaN, [OverflowError] on an
      infinity *)
  to_int : F -> outcome Z
}.

(** [posixpath.splitext] *)
Module PosixPath.

(** [s.rfind(c)] for a character, [-1] when absent. *)
Fixpoint rfind (c : ascii) (s : string) : Z :=
  match s with
  | EmptyString => (-1)%Z
  | String x s' =>
      let r := rfind c s' in
      if (0 <=? r)%Z then (r + 1)%Z
      else if Ascii.eqb x c then 0%Z else (-1)%Z
  end.

(** [s[:n]] *)
Fixpoint take (n : nat) (s : string) : string :=
  match n, s with
  | O, _ => EmptyString
  | S _, EmptyString => EmptyString
  | S k, String x s' => String x (take k s')
  end.

(** Some character of [s] differs from [c]. *)
Fixpoint has_other (c : ascii) (s : string) : bool :=
  match s with
  | EmptyString => false
  | String x s' => negb (Ascii.eqb x c) || has_other c s'
  end.

Definition splitext (p : string) : string * string :=
  let sepIndex := rfind "/"%char p in
  let dotIndex := rfind "."%char p in
  if (sepIndex <? dotIndex)%Z then
    let filenameIndex := Z.to_nat (sepIndex + 1) in
    (* the loop over the leading dots of the file name *)
    if has_other "."%char
         (take (Z.to_nat dotIndex - filenameIndex) (drop filenameIndex p))
    then (take (Z.to_nat dotIndex) p, drop (Z.to_nat dotIndex) p)
    else (p, EmptyString)
  else (p, EmptyString).

End PosixPath.

Module App.

Definition match_type (isMMA : bool) : string :=
  if isMMA then "MMA" else "Jiu-jitsu".

(** The prompt built by [generate_grappling_plan]. *)
Definition generate_grappling_plan_prompt
    (player_variable : string) (isMMA : bool) (keywords : string) : string :=
  let prompt := "The image is a still frame from a grappling match. The match has "
                ++ match_type isMMA ++ " rules. " in
  let prompt := prompt ++ "I want you to analyze: " ++ player_variable
                ++ ", and provide three options for the next immediate steps " in
  let prompt := prompt ++ "towards grappling moves that would work best for them given their current position. " in
  let prompt := prompt ++ "I want these steps to be listed in quick bullet format like ex: "
                ++ dquote ++ "1) <<step>> : towards <<move>>, 2) ..." ++ dquote ++ ". " in
  let prompt := prompt ++ "Base the recommendations on historical MMA and Jiu-jitsu match performance. " in
  if truthy keywords
  then prompt ++ "I want you to also take special note of the following keywords for your image and recommendation analysis: " ++ keywords
  else prompt.

Definition generate_grappling_plan (genai : GenAI)
    (image_path player_variable : string) (isMMA : bool) (keywords : string)
    : outcome string :=
  generate_image_description genai image_path
    (generate_grappling_plan_prompt player_variable isMMA keywords).

(** The prompt built by [analyze_grappling_match]. *)
Definition analyze_grappling_match_prompt
    (player_variable : string) (isMMA : bool) (keywords : string) : string :=
  let prompt := "These images are frames from a grappling match. The match has "
                ++ match_type isMMA ++ " rules. " in
  let prompt := prompt ++ "I want you to analyze: " ++ player_variable
                ++ ", and provide an analysis of what went right or wrong " in
  let prompt := prompt ++ "during the match, along with some recommendations for the "
                ++ player_variable ++ " in their next match. " in
  let prompt := prompt ++ "I want these recommendations to be listed in a quick summary format. " in
  let prompt := prompt ++ "Base the recommendations on the athlete's body type, jiu-jitsu guard situation, and historical " in
  let prompt := prompt ++ "MMA and Jiu-jitsu match performance. " in
  if truthy keywords
  then prompt ++ "I want you to also take special note of the following keywords for your analysis: " ++ keywords
  else prompt.

(** The prompt built by [generate_flow_chart]. *)
Definition generate_flow_chart_prompt
    (measurables position_variable : string) (isMMA : bool)
    (favorite_ideas : string) : string :=
  let prompt := "I want you to generate a visual flow chart of jiu-jitsu moves that will have the greatest likelihood " in
  let prompt := prompt ++ "of success for an athlete with the following measurables: "
                ++ measurables ++ ". " in
  let prompt := prompt ++ "I want this chart to focus on " ++ position_variable
                ++ " position under the " ++ match_type isMMA ++ " ruleset" in
  if truthy favorite_ideas
  then prompt ++ ", and take into account that the athlete has the following ideas: " ++ favorite_ideas
  else prompt.

Definition generate_flow_chart (genai : GenAI)
    (measurables position_variable : string) (isMMA : bool)
    (favorite_ideas : string) : outcome (string * string) :=
  generate_image genai
    (generate_flow_chart_prompt measurables position_variable isMMA favorite_ideas).

(** *** The world of the video functions

    A computation runs in a world [W], returns or raises, and leaves a
    world behind either way. *)
Section Video.

Context {F : Type} {PF : PyFloat F}.
Variables W Cap Writer Frame : Type.

Definition M (A : Type) : Type := W -> outcome A * W.

Definition ret {A : Type} (a : A) : M A := fun w => (Return a, w).

Definition raise {A : Type} (e : exn) : M A := fun w => (Raise e, w).

Definition mbind {A B : Type} (m : M A) (k : A -> M B) : M B :=
  fun w =>
    match m w with
    | (Return a, w') => k a w'
    | (Raise e, w') => (Raise e, w')
    end.

(** [try: m except Exception as e: handler e] *)
Definition try_except {A : Type} (m : M A) (handler : exn -> M A) : M A :=
  fun w =>
    match m w with
    | (Return a, w') => (Return a, w')
    | (Raise e, w') => handler e w'
    end.

Definition lift {A : Type} (o : outcome A) : M A := fun w => (o, w).

Inductive cap_prop : Type :=
| CAP_PROP_FPS
| CAP_PROP_FRAME_WIDTH
| CAP_PROP_FRAME_HEIGHT
| CAP_PROP_POS_FRAMES.

(** What the code uses of [cv2], [os], [print] and the AI client.
    [read] returns the frame when [ret] is true and [None] otherwise. *)
Record Env : Type := {
  VideoCapture : string -> M Cap;
  isOpened : Cap -> M bool;
  cap_get : Cap -> cap_prop -> M F;
  cap_set : Cap -> cap_prop -> Z -> M bool;
  cap_read : Cap -> M (option Frame);
  cap_release : Cap -> M unit;
  VideoWriter_fourcc : string -> M Z;
  VideoWriter : string -> Z -> F -> Z * Z -> M Writer;
  out_write : Writer -> Frame -> M unit;
  out_release : Writer -> M unit;
  print : string -> W -> W;
  path_exists : string -> W -> bool;
  os_remove : string -> M unit;
  video_description : string -> string -> M string
}.

Variable env : Env.

Local Notation "x <- m ;; k" := (mbind m (fun x => k))
  (at level 61, m at next level, right associativity).
Local Notation "m ;;; k" := (mbind m (fun _ => k))
  (at level 61, right associativity).

(** The [while current_frame <= end_frame] loop.  Every round adds one to
    [current_frame], so [end_frame + 1 - current_frame] rounds are
    enough; [rounds] bounds the recursion. *)
Fixpoint write_loop (rounds : nat) (cap : Cap) (out : Writer)
    (current_frame end_frame : Z) : M unit :=
  match rounds with
  | O => ret tt
  | S rounds' =>
      if (current_frame <=? end_frame)%Z then
        frame <- cap_read env cap ;;
        match frame with
        | None => ret tt
        | Some frame =>
            out_write env out frame ;;;
            write_loop rounds' cap out (current_frame + 1) end_frame
        end
      else ret tt
  end.

(** The body of the [try] block. *)
Definition extract_body (input_path output_path : string)
    (start_time end_time : F) : M bool :=
  cap <- VideoCapture env input_path ;;
  opened <- isOpened env cap ;;
  if negb opened then ret false
  else
    fps <- cap_get env cap CAP_PROP_FPS ;;
    w <- cap_get env cap CAP_PROP_FRAME_WIDTH ;;
    width <- lift (to_int w) ;;
    h <- cap_get env cap CAP_PROP_FRAME_HEIGHT ;;
    height <- lift (to_int h) ;;
    fourcc <- VideoWriter_fourcc env "mp4v" ;;
    out <- VideoWriter env output_path fourcc fps (width, height) ;;
    start_frame <- lift (to_int (fmul start_time fps)) ;;
    end_frame <- lift (to_int (fmul end_time fps)) ;;
    cap_set env cap CAP_PROP_POS_FRAMES start_frame ;;;
    let current_frame := start_frame in
    write_loop (Z.to_nat (end_frame + 1 - current_frame)) cap out
      current_frame end_frame ;;;
    cap_release env cap ;;;
    out_release env out ;;;
    ret true.

Definition _extract_video_segment (input_path output_path : string)
    (start_time end_time : F) : M bool :=
  try_except (extract_body input_path output_path start_time end_time)
    (fun e w => (Return false,
                 print env ("Error extracting video segment: " ++ str_exn e) w)).

(** What [analyze_grappling_match] hands to the AI client, with the
    client's answer. *)
Definition analyze_grappling_match (video_path player_variable : string)
    (isMMA : bool) (keywords : string) (start_time end_time : option F)
    : M string :=
  let video_to_analyze := video_path in
  video_to_analyze <-
    match start_time, end_time with
    | Some start_time, Some end_time =>
        let subset_path := fst (PosixPath.splitext video_path) ++ "_subset"
                           ++ snd (PosixPath.splitext video_path) in
        _extract_video_segment video_path subset_path start_time end_time ;;;
        ret subset_path
    | _, _ => ret video_to_analyze
    end ;;
  let prompt := analyze_grappling_match_prompt player_variable isMMA keywords in
  response <- video_description env video_to_analyze prompt ;;
  (fun w =>
     if negb (String.eqb video_to_analyze video_path)
        && path_exists env video_to_analyze w
     then try_except (os_remove env video_to_analyze) (fun _ => ret tt) w
     else ret tt w) ;;;
  ret response.

End Video.

Arguments ret {W A} a _.
Arguments raise {W A} e _.
Arguments mbind {W A B} m k _.
Arguments try_except {W A} m handler _.
Arguments lift {W A} o _.
Arguments VideoCapture {F W Cap Writer Frame} e _ _.
Arguments isOpened {F W Cap Writer Frame} e _ _.
Arguments cap_get {F W Cap Writer Frame} e _ _ _.
Arguments cap_set {F W Cap Writer Frame} e _ _ _ _.
Arguments cap_read {F W Cap Writer Frame} e _ _.
Arguments cap_release {F W Cap Writer Frame} e _ _.
Arguments VideoWriter_fourcc {F W Cap Writer Frame} e _ _.
Arguments VideoWriter {F W Cap Writer Frame} e _ _ _ _ _.
Arguments out_write {F W Cap Writer Frame} e _ _ _.
Arguments out_release {F W Cap Writer Frame} e _ _.
Arguments print {F W Cap Writer Frame} e _ _.
Arguments path_exists {F W Cap Writer Frame} e _ _.
Arguments os_remove {F W Cap Writer Frame} e _ _.
Arguments video_description {F W Cap Writer Frame} e _ _ _.
Arguments write_loop {F W Cap Writer Frame} env rounds cap out
  current_frame end_frame _.
Arguments extract_body {F PF W Cap Writer Frame} env input_path output_path
  start_time end_time _.
Arguments _extract_video_segment {F PF W Cap Writer Frame} env input_path
  output_path start_time end_time _.
Arguments analyze_grappling_match {F PF W Cap Writer Frame} env video_path
  player_variable isMMA keywords start_time end_time _.

End App.

(** ** A frame-accurate video library

    The environment the specification assumes (6): capture and writer
    objects live in the world and are named by their index; a capture
    reads the frames of its file in order from its position; a writer
    collects the frames written to it. *)

Module Ideal.

Section Ideal.

Context {F : Type} {PF : PyFloat F}.
Variable Frame : Type.
(** [0.0], what [cap.get] answers on a capture that is not open *)
Variable zero : F.

Record video : Type := {
  opens : bool;
  fps : F;
  width : F;
  height : F;
  frames : list Frame
}.

Record capture : Type := {
  source : option video;
  cap_open : bool;
  pos : Z
}.

Record writer : Type := {
  out_path : string;
  out_fourcc : Z;
  out_fps : F;
  out_size : Z * Z;
  out_frames : list Frame;
  out_open : bool
}.

Record world : Type := {
  files : string -> option video;
  captures : list capture;
  writers : list writer;
  stdout : list string;
  removed : list string;
  service : string -> string -> outcome string;
  analysed : list (string * string)
}.

Definition set_captures (w : world) (cs : list capture) : world :=
  {| files := files w; captures := cs; writers := writers w;
     stdout := stdout w; removed := removed w; service := service w;
     analysed := analysed w |}.

Definition set_writers (w : world) (ws : list writer) : world :=
  {| files := files w; captures := captures w; writers := ws;
     stdout := stdout w; removed := removed w; service := service w;
     analysed := analysed w |}.

Fixpoint update {A : Type} (n : nat) (f : A -> A) (l : list A) : list A :=
  match l, n with
  | [], _ => []
  | x :: l', O => f x :: l'
  | x :: l', S n' => x :: update n' f l'
  end.

Definition open_capture (w : world) (path : string) : capture :=
  match files w path with
  | Some v => {| source := Some v; cap_open := opens v; pos := 0 |}
  | None => {| source := None; cap_open := false; pos := 0 |}
  end.

Definition get_prop (c : capture) (p : App.cap_prop) : F :=
  match source c, cap_open c with
  | Some v, true =>
      match p with
      | App.CAP_PROP_FPS => fps v
      | App.CAP_PROP_FRAME_WIDTH => width v
      | App.CAP_PROP_FRAME_HEIGHT => height v
      | App.CAP_PROP_POS_FRAMES => zero
      end
  | _, _ => zero
  end.

(** The frame under the position of an open capture. *)
Definition current (c : capture) : option Frame :=
  match source c, cap_open c with
  | Some v, true =>
      if (0 <=? pos c)%Z then nth_error (frames v) (Z.to_nat (pos c)) else None
  | _, _ => None
  end.

Definition advance (c : capture) : capture :=
  {| source := source c; cap_open := cap_open c; pos := pos c + 1 |}.

Definition seek (k : Z) (c : capture) : capture :=
  {| source := source c; cap_open := cap_open c; pos := k |}.

Definition close_capture (c : capture) : capture :=
  {| source := source c; cap_open := false; pos := pos c |}.

Definition append_frame (f : Frame) (o : writer) : writer :=
  if out_open o then
    {| out_path := out_path o; out_fourcc := out_fourcc o; out_fps := out_fps o;
       out_size := out_size o; out_frames := out_frames o ++ [f];
       out_open := true |}
  else o.

Definition close_writer (o : writer) : writer :=
  {| out_path := out_path o; out_fourcc := out_fourcc o; out_fps := out_fps o;
     out_size := out_size o; out_frames := out_frames o; out_open := false |}.

(** [cv2.VideoWriter_fourcc]: the four characters of the code, low byte
    first. *)
Fixpoint fourcc (code : string) : Z :=
  match code with
  | EmptyString => 0
  | String c code' => Z.of_nat (nat_of_ascii c) + 256 * fourcc code'
  end.

Definition on_disk (w : world) (path : string) : bool :=
  match files w path with
  | Some _ => negb (existsb (String.eqb path) (removed w))
  | None =>
      existsb (fun o => String.eqb path (out_path o)) (writers w)
      && negb (existsb (String.eqb path) (removed w))
  end.

Definition env : App.Env world nat nat Frame := {|
  App.VideoCapture := fun path w =>
    (Return (List.length (captures w)),
     set_captures w (captures w ++ [open_capture w path]));
  App.isOpened := fun cap w =>
    (Return (match nth_error (captures w) cap with
             | Some c => cap_open c
             | None => false
             end), w);
  App.cap_get := fun cap p w =>
    (Return (match nth_error (captures w) cap with
             | Some c => get_prop c p
             | None => zero
             end), w);
  App.cap_set := fun cap p k w =>
    match p with
    | App.CAP_PROP_POS_FRAMES =>
        (Return true, set_captures w (update cap (seek k) (captures w)))
    | _ => (Return false, w)
    end;
  App.cap_read := fun cap w =>
    match nth_error (captures w) cap with
    | Some c =>
        match current c with
        | Some f => (Return (Some f),
                     set_captures w (update cap advance (captures w)))
        | None => (Return None, w)
        end
    | None => (Return None, w)
    end;
  App.cap_release := fun cap w =>
    (Return tt, set_captures w (update cap close_capture (captures w)));
  App.VideoWriter_fourcc := fun code w => (Return (fourcc code), w);
  App.VideoWriter := fun path code rate size w =>
    (Return (List.length (writers w)),
     set_writers w (writers w ++
       [{| out_path := path; out_fourcc := code; out_fps := rate;
           out_size := size; out_frames := []; out_open := true |}]));
  App.out_write := fun out f w =>
    (Return tt, set_writers w (update out (append_frame f) (writers w)));
  App.out_release := fun out w =>
    (Return tt, set_writers w (update out close_writer (writers w)));
  App.print := fun msg w =>
    {| files := files w; captures := captures w; writers := writers w;
       stdout := stdout w ++ [msg]; removed := removed w;
       service := service w; analysed := analysed w |};
  App.path_exists := fun path w => on_disk w path;
  App.os_remove := fun path w =>
    (Return tt,
     {| files := files w; captures := captures w; writers := writers w;
        stdout := stdout w; removed := removed w ++ [path];
        service := service w; analysed := analysed w |});
  App.video_description := fun path prompt w =>
    (service w path prompt,
     {| files := files w; captures := captures w; writers := writers w;
        stdout := stdout w; removed := removed w; service := service w;
        analysed := analysed w ++ [(path, prompt)] |})
|}.

(** Writing the frames [written], in order. *)
Definition write_all (written : list Frame) (o : writer) : writer :=
  fold_left (fun o f => append_frame f o) written o.

(** The frames [lo..hi] of a video, both ends included. *)
Definition slice (lo hi : Z) (l : list Frame) : list Frame :=
  firstn (Z.to_nat (hi + 1 - lo)) (skipn (Z.to_nat lo) l).

(** No capture and no writer is left open. *)
Definition all_released (w : world) : bool :=
  forallb (fun c => negb (cap_open c)) (captures w)
  && forallb (fun o => negb (out_open o)) (writers w).

End Ideal.

Arguments opens {F Frame} v.
Arguments fps {F Frame} v.
Arguments width {F Frame} v.
Arguments height {F Frame} v.
Arguments frames {F Frame} v.
Arguments source {F Frame} c.
Arguments cap_open {F Frame} c.
Arguments pos {F Frame} c.
Arguments out_path {F Frame} w.
Arguments out_fourcc {F Frame} w.
Arguments out_fps {F Frame} w.
Arguments out_size {F Frame} w.
Arguments out_frames {F Frame} w.
Arguments out_open {F Frame} w.
Arguments files {F Frame} w _.
Arguments captures {F Frame} w.
Arguments writers {F Frame} w.
Arguments stdout {F Frame} w.
Arguments removed {F Frame} w.
Arguments service {F Frame} w _ _.
Arguments analysed {F Frame} w.
Arguments set_captures {F Frame} w cs.
Arguments set_writers {F Frame} w ws.
Arguments open_capture {F Frame} w path.
Arguments get_prop {F Frame} zero c p.
Arguments current {F Frame} c.
Arguments advance {F Frame} c.
Arguments seek {F Frame} k c.
Arguments close_capture {F Frame} c.
Arguments append_frame {F Frame} f o.
Arguments close_writer {F Frame} o.
Arguments on_disk {F Frame} w path.
Arguments write_all {F Frame} written o.
Arguments slice {Frame} lo hi l.
Arguments all_released {F Frame} w.

End Ideal.

(** ** IEEE 754 binary64, the Python [float] *)

Module Float64.

Definition float : Type := spec_float.

Definition mul : float -> float -> float := SFmul 53 1024.

(** [int(x)] *)
Definition int (x : float) : outcome Z :=
  match x with
  | S754_zero _ => Return 0%Z
  | S754_finite s m e =>
      let magnitude :=
        if (0 <=? e)%Z then (Z.pos m * 2 ^ e)%Z
        else (Z.pos m / 2 ^ (- e))%Z in
      Return (if s then (- magnitude)%Z else magnitude)
  | S754_infinity _ => Raise (OverflowError "cannot convert float infinity to integer")
  | S754_nan => Raise (ValueError "cannot convert float NaN to integer")
  end.

(** The float nearest to [m * 2^e]. *)
Definition of_scaled (m e : Z) : float := binary_normalize 53 1024 m e false.

Definition of_Z (n : Z) : float := of_scaled n 0.

#[global] Instance PyFloat_float : PyFloat float := {|
  fmul := mul;
  to_int := int
|}.

End Float64.

(** ** Exact arithmetic, for comparison

    Rational numbers in place of [float]: products are exact and [int]
    truncates towards zero. *)

Module Exact.

Import QArith.

Definition trunc (q : Q) : Z := Z.quot (Qnum q) (Z.pos (Qden q)).

Definition PyFloat_Q : PyFloat Q := {|
  fmul := Qmult;
  to_int := fun q => Return (trunc q)
|}.

End Exact.

(** A two-second, 30 frames per second, 640x480 clip whose frames are
    numbered from 0, on the disk as [match.mp4]; and [broken.mp4], a file
    that does not open as a video. *)
Definition clip : Ideal.video nat := {|
  Ideal.opens := true;
  Ideal.fps := Float64.of_Z 30;
  Ideal.width := Float64.of_Z 640;
  Ideal.height := Float64.of_Z 480;
  Ideal.frames := List.seq 0 60
|}.

Definition broken : Ideal.video nat := {|
  Ideal.opens := false;
  Ideal.fps := Float64.of_Z 0;
  Ideal.width := Float64.of_Z 0;
  Ideal.height := Float64.of_Z 0;
  Ideal.frames := []
|}.

Definition disk (path : string) : option (Ideal.video nat) :=
  if String.eqb path "match.mp4" then Some clip
  else if String.eqb path "broken.mp4" then Some broken
  else None.

(** 0.5 and 1.5 seconds, and [float('inf')]. *)
Definition half_second : Float64.float := Float64.of_scaled 1 (-1).
Definition one_and_a_half : Float64.float := Float64.of_scaled 3 (-1).
Definition infinity : Float64.float := S754_infinity false.

Definition fresh_world : Ideal.world nat := {|
  Ideal.files := disk;
  Ideal.captures := [];
  Ideal.writers := [];
  Ideal.stdout := [];
  Ideal.removed := [];
  Ideal.service := fun _ _ => Return "analysis";
  Ideal.analysed := []
|}.

Definition ideal_env : App.Env (Ideal.world nat) nat nat nat :=
  Ideal.env nat (Float64.of_Z 0).

(** ** Specification vocabulary for strings *)

(** [sub] occurs in [s]. *)
Definition occurs (sub s : string) : Prop :=
  exists pre post, s = pre ++ sub ++ post.

(** [s] is [a], then the leftmost occurrence of [sep], then [b]. *)
Definition leftmost (sep s a b : string) : Prop :=
  s = a ++ sep ++ b /\
  forall a' b', s = a' ++ sep ++ b' -> String.length a <= String.length a'.

(** [t] is [s] up to its leftmost [sep], or all of [s] when [sep] does
    not occur. *)
Definition upto (sep s t : string) : Prop :=
  (~ occurs sep s /\ t = s) \/ (exists b, leftmost sep s t b).

(** [s] up to its leftmost [sep] (all of [s] when there is none), and the
    text after that [sep]. *)
Definition before (sep s : string) : string :=
  match partition sep s with Some (a, _) => a | None => s end.

Definition after (sep s : string) : string :=
  match partition sep s with Some (_, b) => b | None => EmptyString end.

(** A line is an edge statement that mentions the chosen move. *)
Definition edge_match (move_text line : string) : Prop :=
  occurs move_text line /\ occurs "-->" line.

(** The navigation rule in the words of the specification (4.2): the
    diagram is a newline-delimited sequence of statements; the first
    statement that contains [-->] and the chosen text is selected; the
    target is the text after [-->]; the label is the target up to its
    leading bracket, or all of it, trimmed. *)
Definition spec_resolve_next_node (diagram_text chosen_move_text : string)
    : option string :=
  match List.find (fun statement => contains "-->" statement
                                    && contains chosen_move_text statement)
                  (split nl diagram_text) with
  | None => None
  | Some statement =>
      let target := after "-->" statement in
      Some (strip (before "[" target))
  end.

(** The test of the loop in [next_move], and the label its body computes
    for a selected line. *)
Definition selects (move_text line : string) : bool :=
  contains move_text line && contains "-->" line.

Definition line_label (line : string) : string :=
  strip (before "[" (before "-->" (after "-->" line))).

(** A client whose every call fails. *)
Definition offline_genai : GenAI := {|
  generate_text := fun _ => Raise (ServiceError "service unavailable");
  generate_image_description := fun _ _ => Raise (ServiceError "service unavailable");
  generate_video_description := fun _ _ => Raise (ServiceError "service unavailable");
  generate_image := fun _ => Raise (ServiceError "service unavailable")
|}.

(** The two diagrams the specification uses as examples. *)
Definition armbar_diagram : string :=
  "A --> B[armbar setup]" ++ nl ++ "X --> Y[armbar finish]".

Definition guard_diagram : string :=
  "A --> B[pass guard]" ++ nl ++ "B --> C[mount]".

(** The prompt builders that take the ruleset flag, as functions of the
    flag, for given values of the other parameters. *)
Definition prompt_builders
    (player_variable keywords measurables position_variable favorite_ideas
     : string) : list (bool -> string) :=
  [ (fun isMMA => Functions.generate_grappling_plan_prompt player_variable isMMA keywords);
    (fun isMMA => Functions.analyse_grappling_match_prompt player_variable isMMA keywords);
    (fun isMMA => Functions.generate_flow_chart_prompt measurables position_variable isMMA favorite_ideas);
    (fun isMMA => App.generate_grappling_plan_prompt player_variable isMMA keywords);
    (fun isMMA => App.analyze_grappling_match_prompt player_variable isMMA keywords);
    (fun isMMA => App.generate_flow_chart_prompt measurables position_variable isMMA favorite_ideas) ].

(** The text has one place, the same for both values of the flag, where
    the ruleset label stands. *)
Definition ruleset_slot (builder : bool -> string) : Prop :=
  exists pre post, forall isMMA : bool,
    builder isMMA = pre ++ (if isMMA then "MMA" else "Jiu-jitsu") ++ post.

(** A session that holds the armbar diagram. *)
Definition armbar_session : Flow.session_state := {|
  Flow.current_image := None;
  Flow.current_chat := [];
  Flow.current_flowchart := Some armbar_diagram;
  Flow.current_video := None;
  Flow.current_attributes := "tall"
|}.

(** The capture of [input_path] is created and reports that it is not
    open; [w2] is the world after the two calls. *)
Definition cannot_open {F W Cap Writer Frame : Type}
    (env : @App.Env F W Cap Writer Frame) (input_path : string) (w w2 : W)
    : Prop :=
  exists cap w1,
    App.VideoCapture env input_path w = (Return cap, w1) /\
    App.isOpened env cap w1 = (Return false, w2).

(** An answer of the AI service that wraps a diagram in Markdown fences. *)
Definition fenced (body : string) : string :=
  "```mermaid" ++ nl ++ body ++ nl ++ "```".

(** A name fit for the list of masters. *)
Definition clean_name (name : string) : Prop :=
  name <> "" /\ strip name = name.

(** A client that can estimate attributes and fails on everything else. *)
Definition attributes_only_genai : GenAI := {|
  generate_text := fun _ => Raise (ServiceError "quota exceeded");
  generate_image_description := fun _ prompt =>
    if contains "provide an estimate" prompt then Return "long limbs"
    else Raise (ServiceError "quota exceeded");
  generate_video_description := fun _ _ => Raise (ServiceError "quota exceeded");
  generate_image := fun _ => Raise (ServiceError "quota exceeded")
|}.

(** The path of the trimmed copy that [analyze_grappling_match] makes of
    a video, and the path it hands to the AI client. *)
Definition subset_path (video_path : string) : string :=
  fst (PosixPath.splitext video_path) ++ "_subset"
  ++ snd (PosixPath.splitext video_path).

Definition analysed_path {F : Type} (video_path : string)
    (start_time end_time : option F) : string :=
  match start_time, end_time with
  | Some _, Some _ => subset_path video_path
  | _, _ => video_path
  end.

(** The world of [fresh_world] with the AI service down. *)
Definition offline_world : Ideal.world nat := {|
  Ideal.files := disk;
  Ideal.captures := [];
  Ideal.writers := [];
  Ideal.stdout := [];
  Ideal.removed := [];
  Ideal.service := fun _ _ => Raise (ServiceError "service unavailable");
  Ideal.analysed := []
|}.

(** A chat client that answers every call with the same text. *)
Definition echo_client : Talk.Client := {|
  Talk.generate_text := fun _ _ => Return "Osu!";
  Talk.generate_chat_response := fun _ _ _ => Return "Osu!"
|}.










(** A chart that starts with white space, and a client that answers every
    request for a diagram with the same one. *)
Definition padded_diagram : string := " A --> [x]" ++ nl ++ "B A --> C".

Definition canned_genai : GenAI := {|
  generate_text := fun _ => Return "C --> D[mount]";
  generate_image_description := fun _ _ => Return "long limbs";
  generate_video_description := fun _ _ => Return "well played";
  generate_image := fun _ => Return ("chart.png", "a flow chart")
|}.

(** Every character of [s] is white space. *)
Fixpoint blank (s : string) : bool :=
  match s with
  | EmptyString => true
  | String c s' => isspace c && blank s'
  end.

(** The last character of [s], if any. *)
Fixpoint last_char (s : string) : option ascii :=
  match s with
  | EmptyString => None
  | String c EmptyString => Some c
  | String _ s' => last_char s'
  end.

Definition first_char (s : string) : option ascii :=
  match s with
  | EmptyString => None
  | String c _ => Some c
  end.

Definition space_opt (c : option ascii) : bool :=
  match c with Some c => isspace c | None => false end.

(** [t] is [s] with the surrounding white space trimmed. *)
Definition trimmed (s t : string) : Prop :=
  exists a b, s = a ++ t ++ b /\ blank a = true /\ blank b = true /\
              space_opt (first_char t) = false /\ space_opt (last_char t) = false.

(** * Proofs *)

(** ** Strings *)

Section StringFacts.

Lemma app_nil_r (s : string) : s ++ "" = s.
Proof. induction s as [|c s IH]; simpl; [reflexivity | now rewrite IH]. Qed.

Lemma app_assoc (a b c : string) : (a ++ b) ++ c = a ++ (b ++ c).
Proof. induction a as [|x a IH]; simpl; [reflexivity | now rewrite IH]. Qed.

Lemma length_app (a b : string) :
  String.length (a ++ b) = String.length a + String.length b.
Proof. induction a as [|x a IH]; simpl; [reflexivity | now rewrite IH]. Qed.

Lemma drop_app (a b : string) : drop (String.length a) (a ++ b) = b.
Proof. induction a as [|x a IH]; simpl; [now destruct b | exact IH]. Qed.

Lemma startswith_app (p t : string) : startswith p (p ++ t) = true.
Proof.
  induction p as [|x p IH]; simpl; [reflexivity|].
  now rewrite Ascii.eqb_refl, IH.
Qed.

Lemma startswith_inv (p s : string) :
  startswith p s = true -> s = p ++ drop (String.length p) s.
Proof.
  revert s; induction p as [|x p IH]; intros s H; simpl in *.
  - now destruct s.
  - destruct s as [|y s]; [discriminate|].
    apply andb_true_iff in H as [Hxy Hp].
    apply Ascii.eqb_eq in Hxy; subst y.
    simpl. f_equal. now apply IH.
Qed.

Lemma startswith_iff (p s : string) :
  startswith p s = true <-> exists t, s = p ++ t.
Proof.
  split.
  - intros H. eexists. now apply startswith_inv.
  - intros [t ->]. apply startswith_app.
Qed.

Lemma contains_iff (sub s : string) : contains sub s = true <-> occurs sub s.
Proof.
  unfold occurs. induction s as [|c s IH]; simpl.
  - rewrite orb_false_r. split.
    + intros H. apply startswith_iff in H as [t Ht]. now exists "", t.
    + intros (pre & post & H). destruct pre; simpl in H.
      * apply startswith_iff. now exists post.
      * discriminate.
  - rewrite orb_true_iff, IH. split.
    + intros [H | (pre & post & ->)].
      * apply startswith_iff in H as [t Ht]. now exists "", t.
      * now exists (String c pre), post.
    + intros (pre & post & H). destruct pre as [|x pre]; simpl in H.
      * left. apply startswith_iff. now exists post.
      * right. injection H as _ H. now exists pre, post.
Qed.

Lemma contains_false_iff (sub s : string) :
  contains sub s = false <-> ~ occurs sub s.
Proof.
  rewrite <- contains_iff. destruct (contains sub s); split; intros; easy.
Qed.

Lemma contains_app (pre sub post : string) :
  contains sub (pre ++ sub ++ post) = true.
Proof. apply contains_iff. now exists pre, post. Qed.

Lemma occurs_app_l (sub a s : string) : occurs sub s -> occurs sub (a ++ s).
Proof.
  intros (pre & post & ->). exists (a ++ pre), post. now rewrite app_assoc.
Qed.

Lemma occurs_app_r (sub s b : string) : occurs sub s -> occurs sub (s ++ b).
Proof.
  intros (pre & post & ->). exists pre, (post ++ b).
  now rewrite !app_assoc.
Qed.

Lemma occurs_trans (a b c : string) : occurs a b -> occurs b c -> occurs a c.
Proof.
  intros Hab (pre & post & ->). now apply occurs_app_l, occurs_app_r.
Qed.

Lemma partition_some (sep s a b : string) :
  partition sep s = Some (a, b) -> leftmost sep s a b.
Proof.
  revert a b; induction s as [|c s IH]; intros a b; simpl.
  - destruct (startswith sep "") eqn:E; [|discriminate].
    intros [= <- <-]. split; [|simpl; lia].
    apply startswith_inv in E. exact E.
  - destruct (startswith sep (String c s)) eqn:E.
    + intros [= <- <-]. split; [|simpl; lia].
      apply startswith_inv in E. exact E.
    + destruct (partition sep s) as [[a0 b0]|]; [|discriminate].
      intros [= <- <-]. destruct (IH _ _ eq_refl) as [Hs Hmin].
      split; [simpl; now rewrite <- Hs|].
      intros [|x a'] b' H'; simpl in H'.
      * assert (startswith sep (String c s) = true)
          by (apply startswith_iff; now exists b').
        congruence.
      * injection H' as _ H'. apply Hmin in H'. simpl. lia.
Qed.

Lemma partition_none (sep s : string) :
  partition sep s = None <-> contains sep s = false.
Proof.
  induction s as [|c s IH]; simpl.
  - destruct (startswith sep ""); simpl; split; intros; easy.
  - destruct (startswith sep (String c s)); simpl; [split; intros; easy|].
    rewrite <- IH. destruct (partition sep s) as [[a b]|]; split; intros; easy.
Qed.

Lemma leftmost_fun (sep s a b a' b' : string) :
  leftmost sep s a b -> leftmost sep s a' b' -> a = a' /\ b = b'.
Proof.
  intros [H1 M1] [H2 M2].
  pose proof (M1 _ _ H2) as L1. pose proof (M2 _ _ H1) as L2.
  assert (L : String.length a = String.length a') by lia. clear L1 L2 M1 M2.
  subst s. revert a' H2 L. induction a as [|x a IH]; intros [|y a'] H2 L;
    simpl in *; try discriminate.
  - split; [reflexivity|].
    assert (E : drop (String.length sep) (sep ++ b) = drop (String.length sep) (sep ++ b'))
      by now rewrite H2.
    now rewrite !drop_app in E.
  - injection H2 as -> H2. injection L as L.
    destruct (IH _ H2 L) as [-> ->]. now split.
Qed.

Lemma partition_iff (sep s a b : string) :
  partition sep s = Some (a, b) <-> leftmost sep s a b.
Proof.
  split; [apply partition_some|].
  intros H. destruct (partition sep s) as [[a0 b0]|] eqn:E.
  - apply partition_some in E. destruct (leftmost_fun _ _ _ _ _ _ E H) as [-> ->].
    reflexivity.
  - apply partition_none, contains_false_iff in E. destruct H as [H _].
    exfalso. apply E. now exists a, b.
Qed.

Lemma leftmost_length (sep s a b : string) :
  leftmost sep s a b ->
  String.length s = String.length a + String.length sep + String.length b.
Proof. intros [-> _]. rewrite !length_app. lia. Qed.

Lemma split_rounds_enough (sep s : string) (r1 r2 : nat) :
  sep <> "" -> String.length s <= r1 -> String.length s <= r2 ->
  split_rounds r1 sep s = split_rounds r2 sep s.
Proof.
  intros Hsep.
  assert (Hpos : 0 < String.length sep) by (destruct sep; [easy | simpl; lia]).
  revert r2 s.
  induction r1 as [|r1 IH]; intros r2 s H1 H2.
  - destruct r2; simpl; destruct (partition sep s) as [[a b]|] eqn:E;
      try reflexivity.
    apply partition_some, leftmost_length in E. lia.
  - simpl. destruct (partition sep s) as [[a b]|] eqn:E.
    + pose proof (leftmost_length _ _ _ _ (partition_some _ _ _ _ E)) as L.
      destruct r2 as [|r2]; [lia|]. simpl. rewrite E.
      f_equal. apply IH; lia.
    + destruct r2; simpl; now rewrite E.
Qed.

Lemma split_eq (sep s : string) :
  sep <> "" ->
  split sep s =
  match partition sep s with
  | None => [s]
  | Some (a, b) => a :: split sep b
  end.
Proof.
  intros Hsep. unfold split.
  destruct (partition sep s) as [[a b]|] eqn:E.
  - pose proof (leftmost_length _ _ _ _ (partition_some _ _ _ _ E)) as L.
    assert (0 < String.length sep) by (destruct sep; [easy | simpl; lia]).
    destruct (String.length s) as [|n] eqn:Ls; [lia|]. simpl. rewrite E.
    f_equal. apply split_rounds_enough; [assumption | lia | lia].
  - destruct (String.length s); simpl; now rewrite E.
Qed.

(** [split] by induction on the length of the text. *)
Lemma split_ind (sep : string) (P : string -> list string -> Prop) :
  sep <> "" ->
  (forall s, partition sep s = None -> P s [s]) ->
  (forall s a b, partition sep s = Some (a, b) ->
                 P b (split sep b) -> P s (a :: split sep b)) ->
  forall s, P s (split sep s).
Proof.
  intros Hsep Hnone Hsome s.
  assert (Hpos : 0 < String.length sep) by (destruct sep; [easy | simpl; lia]).
  remember (String.length s) as n eqn:Hn.
  assert (Hle : String.length s <= n) by lia. clear Hn.
  revert s Hle. induction n as [|n IH]; intros s Hle;
    rewrite split_eq by assumption;
    destruct (partition sep s) as [[a b]|] eqn:E; auto.
  - apply partition_some, leftmost_length in E. lia.
  - apply Hsome; [assumption|]. apply IH.
    apply partition_some, leftmost_length in E. lia.
Qed.

(** Joining the parts with the separator gives the text back. *)
Lemma concat_split (sep s : string) :
  sep <> "" -> String.concat sep (split sep s) = s.
Proof.
  intros Hsep. apply (split_ind sep (fun s l => String.concat sep l = s));
    [assumption | reflexivity |].
  intros s0 a b E IH. apply partition_some in E as [-> _].
  simpl. rewrite IH.
  rewrite split_eq by assumption.
  destruct (partition sep b) as [[a1 b1]|]; reflexivity.
Qed.

Lemma leftmost_before (sep s a b : string) :
  sep <> "" -> leftmost sep s a b -> ~ occurs sep a.
Proof.
  intros Hsep [-> Hmin] (p & q & ->).
  assert (0 < String.length sep) by (destruct sep; [easy | simpl; lia]).
  specialize (Hmin p (q ++ sep ++ b)).
  rewrite !app_assoc in Hmin. specialize (Hmin eq_refl).
  rewrite length_app in Hmin.
  rewrite length_app in Hmin. lia.
Qed.

(** No part contains the separator. *)
Lemma split_parts (sep s part : string) :
  sep <> "" -> In part (split sep s) -> ~ occurs sep part.
Proof.
  intros Hsep. revert part.
  apply (split_ind sep (fun s l => forall part, In part l -> ~ occurs sep part));
    [assumption | |].
  - intros s0 E part [<- | []]. now apply contains_false_iff, partition_none.
  - intros s0 a b E IH part [<- | Hin]; [|now apply IH].
    eapply leftmost_before; [eassumption|]. eapply partition_some, E.
Qed.

Lemma split_not_nil (sep s : string) : sep <> "" -> split sep s <> [].
Proof.
  intros Hsep. rewrite split_eq by assumption.
  destruct (partition sep s) as [[a b]|]; discriminate.
Qed.

Lemma lstrip_spec (s : string) :
  exists a, s = a ++ lstrip s /\ blank a = true /\
            space_opt (first_char (lstrip s)) = false.
Proof.
  induction s as [|c s (a & Hs & Ha & Hf)]; simpl.
  - now exists "".
  - destruct (isspace c) eqn:Ec.
    + exists (String c a). simpl. rewrite Ec, Ha. now rewrite <- Hs.
    + exists "". simpl. now rewrite Ec.
Qed.

Lemma rstrip_spec (s : string) :
  exists b, s = rstrip s ++ b /\ blank b = true /\
            space_opt (last_char (rstrip s)) = false.
Proof.
  induction s as [|c s (b & Hs & Hb & Hl)]; simpl.
  - now exists "".
  - destruct (rstrip s) as [|d r] eqn:Er.
    + destruct (isspace c) eqn:Ec.
      * exists (String c b). simpl in *. rewrite Ec, Hb. now subst.
      * exists b. simpl in *. now subst.
    + exists b. simpl in *. repeat split; [congruence | assumption |].
      destruct r; assumption.
Qed.

Lemma rstrip_first (s : string) :
  space_opt (first_char s) = false ->
  space_opt (first_char (rstrip s)) = false.
Proof.
  destruct s as [|c s]; simpl; [easy|]. intros Hc.
  destruct (rstrip s); [rewrite Hc|]; exact Hc || reflexivity.
Qed.

(** [strip] trims the surrounding white space, and nothing else. *)
Lemma strip_trimmed (s : string) : trimmed s (strip s).
Proof.
  unfold trimmed, strip.
  destruct (lstrip_spec s) as (a & Hs & Ha & Hf).
  destruct (rstrip_spec (lstrip s)) as (b & Hs' & Hb & Hl).
  exists a, b. repeat split; try assumption.
  - now rewrite <- Hs', <- Hs.
  - now apply rstrip_first.
Qed.

Lemma strip_occurs (s : string) : occurs (strip s) s.
Proof. destruct (strip_trimmed s) as (a & b & H & _). now exists a, b. Qed.

Lemma occurs_refl (s : string) : occurs s s.
Proof. exists "", "". simpl. now rewrite app_nil_r. Qed.

(** *** Splitting at a single character *)

Section SplitChar.

Variable c : ascii.
Local Abbreviation sep := (String c "").

Lemma sep_not_nil : sep <> "".
Proof. discriminate. Qed.

Lemma partition_char_cons (x : ascii) (t : string) :
  partition sep (String x t) =
  if Ascii.eqb c x then Some ("", t)
  else match partition sep t with
       | Some (a, b) => Some (String x a, b)
       | None => None
       end.
Proof. simpl. now destruct (Ascii.eqb c x). Qed.

Lemma partition_char_app_some (t y a b : string) :
  partition sep t = Some (a, b) -> partition sep (t ++ y) = Some (a, b ++ y).
Proof.
  revert a. induction t as [|x t IH]; intros a; [discriminate|].
  change ((String x t) ++ y) with (String x (t ++ y)).
  rewrite !partition_char_cons. destruct (Ascii.eqb c x).
  - now intros [= <- <-].
  - destruct (partition sep t) as [[a0 b0]|]; [|discriminate].
    intros [= <- <-]. now rewrite (IH a0 eq_refl).
Qed.

Lemma partition_char_app_none (t y : string) :
  partition sep t = None ->
  partition sep (t ++ y) =
  match partition sep y with
  | Some (a, b) => Some (t ++ a, b)
  | None => None
  end.
Proof.
  induction t as [|x t IH].
  - intros _. simpl (_ ++ _). now destruct (partition sep y) as [[a b]|].
  - change ((String x t) ++ y) with (String x (t ++ y)).
    rewrite !partition_char_cons. destruct (Ascii.eqb c x); [discriminate|].
    destruct (partition sep t) as [[a0 b0]|]; [discriminate|].
    intros _. rewrite IH by reflexivity.
    now destruct (partition sep y) as [[a b]|].
Qed.

Lemma split_char_cons (x : ascii) (t l : string) :
  In l (split sep t) ->
  exists l', In l' (split sep (String x t)) /\ occurs l l'.
Proof.
  rewrite (split_eq sep (String x t)) by apply sep_not_nil.
  rewrite partition_char_cons. destruct (Ascii.eqb c x).
  - intros H. exists l. split; [now right | apply occurs_refl].
  - rewrite (split_eq sep t) by apply sep_not_nil.
    destruct (partition sep t) as [[a b]|].
    + intros [<- | H].
      * exists (String x a). split; [now left|].
        exists (String x ""), "". simpl. now rewrite app_nil_r.
      * exists l. split; [now right | apply occurs_refl].
    + intros [<- | []]. exists (String x t). split; [now left|].
      exists (String x ""), "". simpl. now rewrite app_nil_r.
Qed.

Lemma split_char_app_l (a t l : string) :
  In l (split sep t) ->
  exists l', In l' (split sep (a ++ t)) /\ occurs l l'.
Proof.
  induction a as [|x a IH]; intros H.
  - exists l. split; [assumption | apply occurs_refl].
  - destruct (IH H) as (l1 & H1 & O1).
    destruct (split_char_cons x _ _ H1) as (l2 & H2 & O2).
    exists l2. split; [assumption | eapply occurs_trans; eassumption].
Qed.

Lemma split_char_app_r (t y l : string) :
  In l (split sep t) ->
  exists l', In l' (split sep (t ++ y)) /\ occurs l l'.
Proof.
  revert l.
  apply (split_ind sep (fun t ls => forall l, In l ls ->
           exists l', In l' (split sep (t ++ y)) /\ occurs l l'));
    [apply sep_not_nil | |].
  - intros s E l [<- | []].
    rewrite (split_eq sep (s ++ y)) by apply sep_not_nil.
    rewrite partition_char_app_none by assumption.
    destruct (partition sep y) as [[a b]|].
    + exists (s ++ a). split; [now left|]. exists "", a. reflexivity.
    + exists (s ++ y). split; [now left|]. exists "", y. reflexivity.
  - intros s a b E IH l Hin.
    rewrite (split_eq sep (s ++ y)) by apply sep_not_nil.
    rewrite (partition_char_app_some _ y _ _ E).
    destruct Hin as [<- | Hin].
    + exists a. split; [now left | apply occurs_refl].
    + destruct (IH _ Hin) as (l' & H' & O'). exists l'. split; [now right | assumption].
Qed.

End SplitChar.

(** Every line of the trimmed text lies within a line of the text. *)
Lemma strip_lines (s l : string) :
  In l (split nl (strip s)) ->
  exists l', In l' (split nl s) /\ occurs l l'.
Proof.
  intros H. destruct (strip_trimmed s) as (a & b & Hs & _).
  destruct (split_char_app_r LF _ b _ H) as (l1 & H1 & O1).
  destruct (split_char_app_l LF a _ _ H1) as (l2 & H2 & O2).
  exists l2. split; [now rewrite Hs | eapply occurs_trans; eassumption].
Qed.

Lemma before_upto (sep s : string) : upto sep s (before sep s).
Proof.
  unfold upto, before. destruct (partition sep s) as [[a b]|] eqn:E.
  - right. exists b. now apply partition_some.
  - left. split; [|reflexivity]. now apply contains_false_iff, partition_none.
Qed.

Lemma upto_before (sep s t : string) : upto sep s t -> t = before sep s.
Proof.
  unfold upto, before. intros [[Hno ->] | [b Hl]].
  - apply contains_false_iff, partition_none in Hno. now rewrite Hno.
  - apply partition_iff in Hl. now rewrite Hl.
Qed.

Lemma split_hd (sep s : string) :
  sep <> "" -> nth 0 (split sep s) "" = before sep s.
Proof.
  intros Hsep. rewrite split_eq by assumption. unfold before.
  now destruct (partition sep s) as [[a b]|].
Qed.

(** *** Trimming and a non-blank character *)

Section StripChar.

Variable x : ascii.
Hypothesis x_not_space : isspace x = false.
Local Abbreviation sep := (String x "").

Lemma partition_lstrip (t p q : string) :
  partition sep t = Some (p, q) ->
  partition sep (lstrip t) = Some (lstrip p, q).
Proof.
  revert p. induction t as [|y t IH]; intros p; [discriminate|].
  rewrite partition_char_cons. destruct (Ascii.eqb x y) eqn:Exy.
  - apply Ascii.eqb_eq in Exy; subst y. intros [= <- <-].
    simpl lstrip. rewrite x_not_space. rewrite partition_char_cons.
    now rewrite Ascii.eqb_refl.
  - destruct (partition sep t) as [[p0 q0]|] eqn:E; [|discriminate].
    intros [= <- <-]. simpl lstrip. destruct (isspace y).
    + now apply IH.
    + rewrite partition_char_cons, Exy, E. reflexivity.
Qed.

Lemma partition_rstrip (t p q : string) :
  partition sep t = Some (p, q) ->
  exists q', partition sep (rstrip t) = Some (p, q').
Proof.
  revert p. induction t as [|y t IH]; intros p; [discriminate|].
  rewrite partition_char_cons. destruct (Ascii.eqb x y) eqn:Exy.
  - apply Ascii.eqb_eq in Exy; subst y. intros [= <- <-].
    simpl rstrip. rewrite x_not_space.
    destruct (rstrip t) as [|d r]; eexists;
      rewrite partition_char_cons, Ascii.eqb_refl; reflexivity.
  - destruct (partition sep t) as [[p0 q0]|] eqn:E; [|discriminate].
    intros [= <- <-]. destruct (IH _ eq_refl) as (q' & Hq').
    simpl rstrip. destruct (rstrip t) as [|d r] eqn:Er; [discriminate|].
    exists q'. rewrite partition_char_cons, Exy, Hq'. reflexivity.
Qed.

Lemma partition_strip_some (t p q : string) :
  partition sep t = Some (p, q) ->
  exists q', partition sep (strip t) = Some (lstrip p, q').
Proof.
  intros H. apply partition_lstrip in H. now apply partition_rstrip in H.
Qed.

Lemma partition_strip_none (t : string) :
  partition sep t = None -> partition sep (strip t) = None.
Proof.
  rewrite !partition_none, !contains_false_iff. intros H O. apply H.
  eapply occurs_trans; [exact O | apply strip_occurs].
Qed.

End StripChar.

Lemma lstrip_idem (s : string) : lstrip (lstrip s) = lstrip s.
Proof.
  induction s as [|c s IH]; simpl; [reflexivity|].
  destruct (isspace c) eqn:E; [assumption|]. simpl. now rewrite E.
Qed.

Lemma strip_lstrip (s : string) : strip (lstrip s) = strip s.
Proof. unfold strip. now rewrite lstrip_idem. Qed.

(** Every part lies within the text. *)
Lemma split_occurs (sep s part : string) :
  sep <> "" -> In part (split sep s) -> occurs part s.
Proof.
  intros Hsep. revert part.
  apply (split_ind sep (fun s l => forall part, In part l -> occurs part s));
    [assumption | |].
  - intros s0 _ part [<- | []]. apply occurs_refl.
  - intros s0 a b E IH part Hin. apply partition_some in E as [-> _].
    destruct Hin as [<- | Hin].
    + exists "", (sep ++ b). reflexivity.
    + rewrite <- app_assoc. now apply occurs_app_l, IH.
Qed.

End StringFacts.

(** ** Flow-chart navigation ([next_move]) *)

Section Navigation.

Import Functions.

Lemma selects_iff (move_text line : string) :
  selects move_text line = true <-> edge_match move_text line.
Proof.
  unfold selects, edge_match. now rewrite andb_true_iff, !contains_iff.
Qed.

Lemma bracket_not_space : isspace "["%char = false.
Proof. reflexivity. Qed.

(** Lines 278-282: trimming before or after cutting at the bracket gives
    the same label. *)
Lemma target_label (part : string) :
  (let target := strip part in
   if contains "[" target then strip (nth 0 (split "[" target) "") else target)
  = strip (before "[" part).
Proof.
  cbv zeta. unfold before at 1.
  destruct (partition "[" part) as [[p q]|] eqn:E.
  - destruct (partition_strip_some _ bracket_not_space _ _ _ E) as (q' & E').
    assert (C : contains "[" (strip part) = true).
    { destruct (contains "[" (strip part)) eqn:C; [reflexivity|].
      apply partition_none in C. congruence. }
    rewrite C, split_hd by discriminate. unfold before. rewrite E'.
    apply strip_lstrip.
  - pose proof (partition_strip_none "["%char _ E) as E'.
    apply partition_none in E'. now rewrite E'.
Qed.

Lemma next_move_loop_cons (move_text line : string) (rest : list string)
    (new_position : option string) :
  next_move_loop move_text (line :: rest) new_position =
  if selects move_text line then
    let parts := split "-->" line in
    if (2 <=? List.length parts)%nat then
      let target := strip (nth 1 parts "") in
      Some (if contains "[" target
            then strip (nth 0 (split "[" target) "") else target)
    else next_move_loop move_text rest new_position
  else next_move_loop move_text rest new_position.
Proof. reflexivity. Qed.

(** The loop returns the label of the first selected line. *)
Lemma next_move_loop_find (move_text : string) (lines : list string) :
  next_move_loop move_text lines None =
  option_map line_label (List.find (selects move_text) lines).
Proof.
  induction lines as [|line rest IH]; [reflexivity|].
  rewrite next_move_loop_cons. cbn [List.find].
  destruct (selects move_text line) eqn:S; [|exact IH].
  cbv zeta.
  apply andb_true_iff in S as [_ A].
  rewrite (split_eq "-->" line) by discriminate.
  destruct (partition "-->" line) as [[src rest']|] eqn:E.
  - assert (L : (2 <=? List.length (src :: split "-->" rest'))%nat = true).
    { pose proof (split_not_nil "-->" rest').
      destruct (split "-->" rest'); [now exfalso; apply H|reflexivity]. }
    rewrite L. change (nth 1 (src :: split "-->" rest') "")
      with (nth 0 (split "-->" rest') "").
    rewrite split_hd by discriminate. simpl option_map. f_equal.
    rewrite target_label. unfold line_label, after. now rewrite E.
  - apply partition_none in E. congruence.
Qed.

Lemma find_first {A : Type} (f : A -> bool) (l : list A) (x : A) :
  List.find f l = Some x ->
  exists l1 l2, l = (l1 ++ x :: l2)%list /\ f x = true /\
                forall y, In y l1 -> f y = false.
Proof.
  induction l as [|a l IH]; [discriminate|]. simpl.
  destruct (f a) eqn:E.
  - intros [= ->]. exists [], l. repeat split; [assumption | intros y []].
  - intros H. destruct (IH H) as (l1 & l2 & -> & Hx & Hl1).
    exists (a :: l1), l2. repeat split; [assumption|].
    intros y [<- | Hy]; [assumption | now apply Hl1].
Qed.

Lemma not_selects (move_text line : string) :
  selects move_text line = false <-> ~ edge_match move_text line.
Proof.
  rewrite <- selects_iff. destruct (selects move_text line); split; intros; easy.
Qed.

Lemma resolve_find (flow_chart move_text : string) :
  resolve_next_node flow_chart move_text =
  option_map line_label
    (List.find (selects move_text) (split nl (strip flow_chart))).
Proof. apply next_move_loop_find. Qed.

Lemma line_label_spec (line : string) :
  occurs "-->" line ->
  exists src rest target pre,
    leftmost "-->" line src rest /\ upto "-->" rest target /\
    upto "[" target pre /\ line_label line = strip pre.
Proof.
  intros O. apply contains_iff in O.
  destruct (partition "-->" line) as [[src rest]|] eqn:E.
  - exists src, rest, (before "-->" rest), (before "[" (before "-->" rest)).
    repeat split; try apply before_upto; try (apply partition_some in E; apply E).
    unfold line_label, after. now rewrite E.
  - apply partition_none in E. congruence.
Qed.

Lemma line_label_unique (line src rest target pre : string) :
  leftmost "-->" line src rest -> upto "-->" rest target ->
  upto "[" target pre -> line_label line = strip pre.
Proof.
  intros L U1 U2. apply partition_iff in L.
  apply upto_before in U1, U2. subst.
  unfold line_label, after. now rewrite L.
Qed.

Lemma find_same {A : Type} (f g : A -> bool) (l : list A) :
  (forall x, f x = g x) -> List.find f l = List.find g l.
Proof.
  intros H. induction l as [|a l IH]; simpl; [reflexivity|].
  now rewrite H, IH.
Qed.

(** Where the diagram has no surrounding white space and no statement
    chains arrows, the code resolves as the specification words it. *)
Lemma resolve_agrees_single_arrow (flow_chart move_text : string) :
  strip flow_chart = flow_chart ->
  (forall line, In line (split nl flow_chart) ->
                ~ occurs "-->" (after "-->" line)) ->
  resolve_next_node flow_chart move_text
  = spec_resolve_next_node flow_chart move_text.
Proof.
  intros Hstrip Hsingle. rewrite resolve_find, Hstrip.
  unfold spec_resolve_next_node.
  rewrite (find_same (selects move_text)
             (fun statement => contains "-->" statement
                               && contains move_text statement))
    by (intros line; apply andb_comm).
  destruct (List.find _ _) as [line|] eqn:E; [|reflexivity].
  apply List.find_some in E as [Hin _]. simpl. f_equal.
  unfold line_label. f_equal. f_equal.
  pose proof (Hsingle line Hin) as Hno.
  apply contains_false_iff, partition_none in Hno.
  unfold before at 1. now rewrite Hno.
Qed.

(** C1 (as stated, refuted).  On a chained statement the code resolves to
    the text between the first and the second arrow ("B"), where the text
    after the arrow is "B --> C". *)
Lemma resolve_differs_on_chain :
  resolve_next_node "A --> B --> C" "A" = Some "B" /\
  spec_resolve_next_node "A --> B --> C" "A" = Some "B --> C".
Proof. split; reflexivity. Qed.

(** C1 (amended).  For every diagram text and chosen move text, the node
    resolved by [next_move] is found as follows: the diagram is trimmed
    as a whole and cut into lines; the first line, in document order, that
    contains both the chosen text and [-->] is selected; the target is the
    text between that line's leftmost [-->] and the next [-->] (or the end
    of the line); the label is the target up to its first [[] (or all of
    it), trimmed.  When no line is selected nothing is resolved.  For the
    diagram "A --> B[armbar setup]\nX --> Y[armbar finish]" and the chosen
    text "armbar" the resolved node is B, not Y. *)
Theorem resolve_first_matching_edge :
  (forall flow_chart move_text : string,
     match resolve_next_node flow_chart move_text with
     | None =>
         forall line, In line (split nl (strip flow_chart)) ->
                      ~ edge_match move_text line
     | Some label =>
         exists earlier line later src rest target pre,
           split nl (strip flow_chart) = (earlier ++ line :: later)%list /\
           (forall l, In l earlier -> ~ edge_match move_text l) /\
           edge_match move_text line /\
           leftmost "-->" line src rest /\
           upto "-->" rest target /\
           upto "[" target pre /\
           label = strip pre
     end) /\
  resolve_next_node armbar_diagram "armbar" = Some "B".
Proof.
  split; [|reflexivity].
  intros flow_chart move_text. rewrite resolve_find.
  destruct (List.find _ _) as [line|] eqn:F; simpl.
  - destruct (find_first _ _ _ F) as (earlier & later & Hl & Hsel & Hearlier).
    apply selects_iff in Hsel.
    destruct (line_label_spec line (proj2 Hsel))
      as (src & rest & target & pre & H1 & H2 & H3 & H4).
    exists earlier, line, later, src, rest, target, pre.
    repeat split; try assumption; try apply Hsel.
    + intros l Hin. now apply not_selects, Hearlier.
    + apply H1.
    + apply H1.
  - intros line Hin. apply not_selects.
    exact (List.find_none _ _ F line Hin).
Qed.

Section WithClient.

Variable genai : GenAI.
Variables (measurables favorite_ideas : string) (isMMA : bool).

Lemma next_move_stays (flow_chart move_text : string) :
  (forall line, In line (split nl (strip flow_chart)) ->
                ~ edge_match move_text line) ->
  resolve_next_node flow_chart move_text = None /\
  next_move genai flow_chart move_text measurables isMMA favorite_ideas
  = Return flow_chart.
Proof.
  intros H.
  assert (R : resolve_next_node flow_chart move_text = None).
  { rewrite resolve_find. destruct (List.find _ _) as [line|] eqn:F;
      [|reflexivity].
    apply List.find_some in F as [Hin Hsel]. apply selects_iff in Hsel.
    now destruct (H line Hin). }
  split; [assumption|]. unfold next_move. now rewrite R.
Qed.

(** C2.  When no edge statement of the diagram (a line containing [-->])
    contains the chosen text, nothing is resolved ([None]), nothing is
    raised, and [next_move] returns the flow chart it was given. *)
Theorem next_move_no_transition (flow_chart move_text : string) :
  (forall line, In line (split nl flow_chart) ->
                occurs "-->" line -> ~ occurs move_text line) ->
  resolve_next_node flow_chart move_text = None /\
  next_move genai flow_chart move_text measurables isMMA favorite_ideas
  = Return flow_chart.
Proof.
  intros H. apply next_move_stays.
  intros line Hin [Hm Ha].
  destruct (strip_lines _ _ Hin) as (line' & Hin' & Hocc).
  apply (H line' Hin'); eapply occurs_trans; eassumption.
Qed.

(** C9 (amended).  When the first line of the flow chart trimmed as a
    whole (the lines [next_move] scans) that contains both the
    chosen text and [-->] yields an empty label (nothing but white space
    between the arrow and the bracket, the next arrow or the end of the
    line), the resolved position is the empty string and [next_move]
    returns the flow chart it was given, as when nothing is found; it
    does not go on to a node with an empty label. *)
Theorem next_move_empty_label
    (flow_chart move_text : string) (earlier later : list string)
    (line src rest target pre : string) :
  split nl (strip flow_chart) = (earlier ++ line :: later)%list ->
  (forall l, In l earlier -> ~ edge_match move_text l) ->
  edge_match move_text line ->
  leftmost "-->" line src rest ->
  upto "-->" rest target ->
  upto "[" target pre ->
  strip pre = "" ->
  resolve_next_node flow_chart move_text = Some "" /\
  next_move genai flow_chart move_text measurables isMMA favorite_ideas
  = Return flow_chart.
Proof.
  intros Hl Hearlier Hsel L U1 U2 Hempty.
  assert (R : resolve_next_node flow_chart move_text = Some "").
  { rewrite resolve_find, Hl.
    assert (F : List.find (selects move_text) (earlier ++ line :: later)
                = Some line).
    { clear Hl. induction earlier as [|l earlier IH]; simpl.
      - apply selects_iff in Hsel. now rewrite Hsel.
      - assert (E : selects move_text l = false)
          by (apply not_selects, Hearlier; now left).
        rewrite E. apply IH. intros l' Hin. apply Hearlier. now right. }
    rewrite F. simpl. f_equal.
    rewrite (line_label_unique _ _ _ _ _ L U1 U2). exact Hempty. }
  split; [assumption|]. unfold next_move. now rewrite R.
Qed.

(** A chosen text that resolves to a node occurs in the flow chart. *)
Lemma resolve_found (flow_chart move_text node : string) :
  resolve_next_node flow_chart move_text = Some node ->
  contains move_text flow_chart = true.
Proof.
  rewrite resolve_find.
  destruct (List.find _ _) as [line|] eqn:E; [|discriminate]. intros _.
  apply List.find_some in E as [Hin Hsel].
  apply selects_iff in Hsel as [Hm _]. apply contains_iff.
  eapply occurs_trans; [exact Hm|].
  eapply occurs_trans; [|apply strip_occurs].
  apply (split_occurs nl); [discriminate | exact Hin].
Qed.

Lemma truthy_iff (s : string) : truthy s = true <-> s <> "".
Proof. destruct s; simpl; split; intros; congruence. Qed.

End WithClient.

End Navigation.

(** ** Prompt builders *)

Section Prompts.

Ltac slot pre :=
  eexists pre, _; intros isMMA;
  rewrite ?app_assoc; reflexivity.

Lemma slot_functions_plan (player_variable keywords : string) :
  ruleset_slot (fun isMMA =>
    Functions.generate_grappling_plan_prompt player_variable isMMA keywords).
Proof.
  unfold Functions.generate_grappling_plan_prompt, Functions.match_type.
  destruct (truthy keywords);
    slot "the image is a still frame from a grappling match. The match has ".
Qed.

Lemma slot_functions_match (player_variable keywords : string) :
  ruleset_slot (fun isMMA =>
    Functions.analyse_grappling_match_prompt player_variable isMMA keywords).
Proof.
  unfold Functions.analyse_grappling_match_prompt, Functions.match_type.
  destruct (truthy keywords);
    slot "these images are frames from a grappling match. The match has ".
Qed.

Lemma slot_functions_chart (measurables position_variable favorite_ideas : string) :
  ruleset_slot (fun isMMA =>
    Functions.generate_flow_chart_prompt measurables position_variable isMMA
      favorite_ideas).
Proof.
  unfold Functions.generate_flow_chart_prompt, Functions.match_type.
  destruct (truthy favorite_ideas);
    slot ("I want you to generate a Mermaid based radial visual flow chart of jiu-jitsu moves that will have the greatest likelihood "
          ++ "of success for an athlete with the following measurables: "
          ++ measurables ++ ". " ++ "I want this chart to focus on "
          ++ position_variable ++ " under the ").
Qed.

Lemma slot_app_plan (player_variable keywords : string) :
  ruleset_slot (fun isMMA =>
    App.generate_grappling_plan_prompt player_variable isMMA keywords).
Proof.
  unfold App.generate_grappling_plan_prompt, App.match_type.
  destruct (truthy keywords);
    slot "The image is a still frame from a grappling match. The match has ".
Qed.

Lemma slot_app_match (player_variable keywords : string) :
  ruleset_slot (fun isMMA =>
    App.analyze_grappling_match_prompt player_variable isMMA keywords).
Proof.
  unfold App.analyze_grappling_match_prompt, App.match_type.
  destruct (truthy keywords);
    slot "These images are frames from a grappling match. The match has ".
Qed.

Lemma slot_app_chart (measurables position_variable favorite_ideas : string) :
  ruleset_slot (fun isMMA =>
    App.generate_flow_chart_prompt measurables position_variable isMMA
      favorite_ideas).
Proof.
  unfold App.generate_flow_chart_prompt, App.match_type.
  destruct (truthy favorite_ideas);
    slot ("I want you to generate a visual flow chart of jiu-jitsu moves that will have the greatest likelihood "
          ++ "of success for an athlete with the following measurables: "
          ++ measurables ++ ". " ++ "I want this chart to focus on "
          ++ position_variable ++ " position under the ").
Qed.

Lemma slot_contains (builder : bool -> string) :
  ruleset_slot builder ->
  contains "MMA" (builder true) = true /\
  contains "Jiu-jitsu" (builder false) = true.
Proof.
  intros (pre & post & H). rewrite !H. split; apply contains_app.
Qed.

(** C7.  Whatever the other parameters, the text of every prompt builder
    that takes the ruleset flag has one place where the label stands: it
    reads "MMA" when the flag is true and "Jiu-jitsu" when it is false,
    so the text contains the label of the flag. *)
Theorem prompt_ruleset_label
    (player_variable keywords measurables position_variable favorite_ideas
     : string) :
  Forall (fun builder : bool -> string =>
            ruleset_slot builder /\
            contains "MMA" (builder true) = true /\
            contains "Jiu-jitsu" (builder false) = true)
         (prompt_builders player_variable keywords measurables
            position_variable favorite_ideas).
Proof.
  assert (both : forall builder, ruleset_slot builder ->
            ruleset_slot builder /\
            contains "MMA" (builder true) = true /\
            contains "Jiu-jitsu" (builder false) = true)
    by (intros builder H; split; [assumption | now apply slot_contains]).
  unfold prompt_builders.
  repeat apply Forall_cons; try apply Forall_nil; apply both.
  - apply slot_functions_plan.
  - apply slot_functions_match.
  - apply slot_functions_chart.
  - apply slot_app_plan.
  - apply slot_app_match.
  - apply slot_app_chart.
Qed.

End Prompts.

(** ** Worked examples for the navigation theorems *)

Section NavigationExamples.

Import Functions.

Lemma next_move_no_transition_guard :
  resolve_next_node guard_diagram "submission" = None /\
  next_move offline_genai guard_diagram "submission" "tall" true ""
  = Return guard_diagram.
Proof.
  apply (next_move_no_transition offline_genai "tall" "" true
           guard_diagram "submission").
  intros line Hin _. apply contains_false_iff.
  vm_compute in Hin. destruct Hin as [<- | [<- | []]]; reflexivity.
Defined.

Lemma next_move_empty_label_bracket :
  resolve_next_node "A --> [label]" "A" = Some "" /\
  next_move offline_genai "A --> [label]" "A" "tall" true ""
  = Return "A --> [label]".
Proof.
  apply (next_move_empty_label offline_genai "tall" "" true
           "A --> [label]" "A" [] [] "A --> [label]"
           "A " " [label]" " [label]" " ").
  - reflexivity.
  - intros l [].
  - apply selects_iff. reflexivity.
  - apply partition_iff. reflexivity.
  - exact (before_upto "-->" " [label]").
  - exact (before_upto "[" " [label]").
  - reflexivity.
Defined.

(** The other empty target: nothing after the arrow. *)
Example next_move_empty_label_bare :
  resolve_next_node "A --> " "A" = Some "" /\
  next_move offline_genai "A --> " "A" "tall" true "" = Return "A --> ".
Proof. split; reflexivity. Qed.

(** C9, as the specification words it, fails on a chart that starts with
    white space.  The first line of the text that holds the chosen text
    and an arrow gives an empty label; it is not the first such line of the
    trimmed chart, which [next_move] scans, and [next_move] goes on to
    node C and returns the new chart. *)
Lemma next_move_empty_label_untrimmed :
  List.find (selects " A") (split nl padded_diagram) = Some " A --> [x]" /\
  line_label " A --> [x]" = "" /\
  resolve_next_node padded_diagram " A" = Some "C" /\
  next_move canned_genai padded_diagram " A" "tall" true ""
  = Return "C --> D[mount]" /\
  "C --> D[mount]" <> padded_diagram.
Proof. repeat split; try reflexivity. discriminate. Qed.

End NavigationExamples.

(** ** The flow controller *)

Section Controller.

Import Flow.

Variable genai : GenAI.

Lemma flow_button_failure (st : session_state) (isMMA : bool)
    (ideas flowchart chosen_next node : string) (e : exn) :
  Functions.resolve_next_node flowchart chosen_next = Some node ->
  node <> "" ->
  generate_text genai
    (Functions.generate_flow_chart_prompt (current_attributes st) node
       isMMA ideas) = Raise e ->
  flow_button genai st flowchart chosen_next isMMA ideas =
  {| state := st;
     shown := [st_spinner "Generating next flow...";
               st_error ("An error occurred: " ++ str_exn e)];
     rerun := false |}.
Proof.
  intros R Hnode Hcall.
  unfold flow_button. rewrite (resolve_found _ _ _ R). simpl negb. cbv iota.
  unfold Functions.next_move. rewrite R.
  apply truthy_iff in Hnode. rewrite Hnode. simpl negb. cbv iota.
  unfold Functions.generate_flow_chart. now rewrite Hcall.
Qed.





(** When every AI call of the run fails, the attribute request included,
    a click on [Flow] leaves the whole session state as it was, shows the
    error and asks for no rerun. *)
Lemma flow_run_keeps_state (st : session_state) (i : inputs)
    (flowchart node : string) (e : exn) :
  (forall prompt, generate_text genai prompt = Raise e) ->
  (forall image prompt, generate_image_description genai image prompt = Raise e) ->
  generate_clicked i = false -> flow_clicked i = true ->
  chosen_next i <> "" ->
  current_flowchart st = Some flowchart ->
  Functions.resolve_next_node flowchart (chosen_next i) = Some node ->
  node <> "" ->
  state (flow_chart_generator genai st i) = st /\
  rerun (flow_chart_generator genai st i) = false /\
  In (st_error ("An error occurred: " ++ str_exn e))
     (shown (flow_chart_generator genai st i)).
Proof.
  intros Htext Himage Hgen Hflow Hchosen Hchart R Hnode.
  apply truthy_iff in Hchosen.
  assert (Hflowchart : truthy flowchart = true).
  { destruct flowchart; [|reflexivity].
    pose proof (resolve_found _ _ _ R) as Hf.
    destruct (chosen_next i); [discriminate Hchosen | discriminate Hf]. }
  unfold flow_chart_generator.
  destruct (analyze_attributes genai st (position_variable i))
    as [attributes r1] eqn:Ea.
  assert (Hr1 : state r1 = st).
  { unfold analyze_attributes, Functions.get_attributes in Ea.
    destruct (current_image st) as [image|]; [|now injection Ea as <- <-].
    destruct (truthy image && truthy (position_variable i));
      [|now injection Ea as <- <-].
    rewrite Himage in Ea. now injection Ea as <- <-. }
  rewrite Hgen. cbn [state shown]. rewrite Hr1, Hchart, Hflowchart, Hflow, Hchosen.
  cbn [andb].
  rewrite (flow_button_failure st _ _ flowchart (chosen_next i) node e R Hnode
             (Htext _)).
  cbn [state shown rerun]. repeat split.
  rewrite !in_app_iff. right. right. now left.
Qed.

End Controller.



(** ** The segment extractor, in any environment *)

Section Extractor.

Import App.

Context {F : Type} {PF : PyFloat F} {W Cap Writer Frame : Type}.
Variable env : @Env F W Cap Writer Frame.

(** The bound on the rounds never cuts the loop short: any larger bound
    gives the same run. *)
Lemma write_loop_enough (cap : Cap) (out : Writer) (end_frame : Z)
    (r1 r2 : nat) (current_frame : Z) (w : W) :
  Z.to_nat (end_frame + 1 - current_frame) <= r1 ->
  Z.to_nat (end_frame + 1 - current_frame) <= r2 ->
  write_loop env r1 cap out current_frame end_frame w =
  write_loop env r2 cap out current_frame end_frame w.
Proof.
  revert r2 current_frame w.
  induction r1 as [|r1 IH]; intros r2 current_frame w H1 H2.
  - destruct r2 as [|r2]; [reflexivity|]. simpl.
    destruct (Z.leb_spec current_frame end_frame); [lia | reflexivity].
  - simpl. destruct (Z.leb_spec current_frame end_frame) as [Hle|Hgt].
    + destruct r2 as [|r2]; [lia|]. simpl.
      destruct (Z.leb_spec current_frame end_frame); [|lia].
      unfold mbind. destruct (cap_read env cap w) as [[[frame|]|e] w1];
        try reflexivity.
      destruct (out_write env out frame w1) as [[[]|e] w2]; try reflexivity.
      apply IH; lia.
    + destruct r2 as [|r2]; [reflexivity|]. simpl.
      destruct (Z.leb_spec current_frame end_frame); [lia | reflexivity].
Qed.

(** The body returns [false] exactly when the capture did not open. *)
Lemma extract_body_returns (input_path output_path : string)
    (start_time end_time : F) (w w' : W) (b : bool) :
  extract_body env input_path output_path start_time end_time w
  = (Return b, w') ->
  (b = false <-> cannot_open env input_path w w').
Proof.
  unfold extract_body, cannot_open, mbind, lift, ret.
  destruct (VideoCapture env input_path w) as [[cap|e] w1] eqn:E1;
    [|discriminate].
  destruct (isOpened env cap w1) as [[opened|e] w2] eqn:E2; [|discriminate].
  destruct opened; cbv beta iota delta [negb].
  - intros H. split.
    + intros ->. exfalso.
      repeat match type of H with
             | context [match ?x with _ => _ end] =>
                 first [destruct x as [[?|?] ?] | destruct x as [?|?]];
                 try discriminate H
             end.
    + intros (cap' & w1' & [= <- <-] & H2). rewrite E2 in H2. discriminate.
  - intros [= <- <-]. split; [|reflexivity].
    intros _. now exists cap, w1.
Qed.

Lemma extract_never_raises (input_path output_path : string)
    (start_time end_time : F) (w : W) :
  exists (b : bool) (w' : W),
    _extract_video_segment env input_path output_path start_time end_time w
    = (Return b, w').
Proof.
  unfold _extract_video_segment, try_except.
  destruct (extract_body env input_path output_path start_time end_time w)
    as [[b|e] w1]; eexists _, _; reflexivity.
Qed.

(** C10.  The extractor never raises: in every environment and for every
    input it returns a boolean.  The boolean is [False] when the capture
    did not open and when the body raised, and [True] otherwise. *)
Theorem extract_returns_bool (input_path output_path : string)
    (start_time end_time : F) (w : W) :
  exists (b : bool) (w' : W),
    _extract_video_segment env input_path output_path start_time end_time w
    = (Return b, w') /\
    (b = false <->
       (exists w2, cannot_open env input_path w w2) \/
       (exists e, fst (extract_body env input_path output_path start_time
                         end_time w) = Raise e)).
Proof.
  unfold _extract_video_segment, try_except.
  destruct (extract_body env input_path output_path start_time end_time w)
    as [[b|e] w1] eqn:E.
  - exists b, w1. split; [reflexivity|].
    pose proof (extract_body_returns _ _ _ _ _ _ _ E) as Hb. split.
    + intros ->. left. exists w1. now apply Hb.
    + intros [[w2 Hc] | [e He]]; [|discriminate].
      destruct b; [|reflexivity]. exfalso.
      destruct Hc as (cap & w1' & H1 & H2).
      unfold extract_body, mbind in E. rewrite H1, H2 in E. discriminate.
  - eexists false, _. split; [reflexivity|].
    split; [|reflexivity]. intros _. right. now exists e.
Qed.

(** C4 (amended).  When the capture of the input does not open, the
    extractor returns [False]; it raises nothing, creates no writer and
    prints nothing: the world is the one the two calls left. *)
Theorem extract_unopened_returns_false (input_path output_path : string)
    (start_time end_time : F) (w w2 : W) :
  cannot_open env input_path w w2 ->
  _extract_video_segment env input_path output_path start_time end_time w
  = (Return false, w2).
Proof.
  intros (cap & w1 & H1 & H2).
  unfold _extract_video_segment, try_except, extract_body, mbind.
  now rewrite H1, H2.
Qed.

(** The extraction's answer is dropped: with both times given, the video
    handed to the AI client is the subset path whatever the extractor
    returned. *)
Lemma analyze_ignores_extraction (video_path player_variable : string)
    (isMMA : bool) (keywords : string) (start_time end_time : F) (w : W) :
  let subset_path := fst (PosixPath.splitext video_path) ++ "_subset"
                     ++ snd (PosixPath.splitext video_path) in
  exists (b : bool) (w1 : W),
    _extract_video_segment env video_path subset_path start_time end_time w
    = (Return b, w1) /\
    analyze_grappling_match env video_path player_variable isMMA keywords
      (Some start_time) (Some end_time) w =
    mbind (video_description env subset_path
             (analyze_grappling_match_prompt player_variable isMMA keywords))
          (fun response =>
             mbind (fun w =>
                      if negb (String.eqb subset_path video_path)
                         && path_exists env subset_path w
                      then try_except (os_remove env subset_path)
                             (fun _ => ret tt) w
                      else ret tt w)
                   (fun _ => ret response)) w1.
Proof.
  intros subset_path.
  destruct (extract_never_raises video_path subset_path start_time end_time w)
    as (b & w1 & E).
  exists b, w1. split; [exact E|].
  unfold analyze_grappling_match. fold subset_path.
  unfold mbind at 1 2. rewrite E. reflexivity.
Qed.

End Extractor.

Lemma take_drop (n : nat) (s : string) : PosixPath.take n s ++ drop n s = s.
Proof.
  revert s; induction n as [|n IH]; intros [|c s]; simpl; try reflexivity.
  now rewrite IH.
Qed.

Lemma splitext_join (p : string) :
  fst (PosixPath.splitext p) ++ snd (PosixPath.splitext p) = p.
Proof.
  unfold PosixPath.splitext.
  destruct (_ <? _)%Z; [|apply app_nil_r].
  destruct (PosixPath.has_other _ _); [apply take_drop | apply app_nil_r].
Qed.

(** The subset path is never the path of the original video. *)
Lemma subset_path_differs (video_path : string) :
  fst (PosixPath.splitext video_path) ++ "_subset"
  ++ snd (PosixPath.splitext video_path) <> video_path.
Proof.
  intros H. apply (f_equal String.length) in H.
  rewrite <- (splitext_join video_path) in H at 3.
  rewrite !length_app in H. simpl in H. lia.
Qed.

(** ** The segment extractor on the frame-accurate library *)

Section IdealExtractor.

Import Ideal.

Context {F : Type} {PF : PyFloat F}.
Variable Frame : Type.
Variable zero : F.

Local Abbreviation env := (Ideal.env Frame zero).

Lemma nth_error_snoc {A : Type} (l : list A) (x : A) :
  nth_error (l ++ [x]) (List.length l) = Some x.
Proof. induction l as [|a l IH]; simpl; [reflexivity | exact IH]. Qed.

Lemma update_snoc {A : Type} (f : A -> A) (l : list A) (x : A) :
  update (List.length l) f (l ++ [x]) = (l ++ [f x])%list.
Proof. induction l as [|a l IH]; simpl; [reflexivity | now rewrite IH]. Qed.

Lemma world_eta (w : @world F Frame) cs ws :
  captures w = cs -> writers w = ws ->
  set_writers (set_captures w cs) ws = w.
Proof. destruct w; simpl; intros -> ->; reflexivity. Qed.

Lemma skipn_nth_error_none {A : Type} (l : list A) (n : nat) :
  nth_error l n = None -> skipn n l = [].
Proof. intros H. apply skipn_all2. now apply nth_error_None. Qed.

Lemma skipn_nth_error_some {A : Type} (l : list A) (n : nat) (x : A) :
  nth_error l n = Some x -> skipn n l = x :: skipn (S n) l.
Proof.
  revert n; induction l as [|a l IH]; intros [|n]; simpl; try discriminate.
  - now intros [= ->].
  - intros H. now rewrite (IH _ H).
Qed.

Lemma write_all_open (written : list Frame) (o : @writer F Frame) :
  out_open o = true ->
  write_all written o =
  {| out_path := out_path o; out_fourcc := out_fourcc o; out_fps := out_fps o;
     out_size := out_size o; out_frames := out_frames o ++ written;
     out_open := true |}.
Proof.
  revert o; induction written as [|f written IH]; intros o Ho; simpl.
  - rewrite List.app_nil_r. destruct o; simpl in *; now subst.
  - rewrite IH; unfold append_frame; rewrite Ho; simpl; [|reflexivity].
    now rewrite <- List.app_assoc.
Qed.

(** The loop on a world whose last capture stands at frame [k] of [v] and
    whose last writer is [o]: it copies the frames from [k] on, at most
    [rounds] of them. *)
Lemma ideal_write_loop (v : @video F Frame) (c0 : @capture F Frame)
    (cs : list (@capture F Frame)) (ws : list (@writer F Frame)) (end_frame : Z) :
  source c0 = Some v -> cap_open c0 = true ->
  forall (rounds : nat) (k : Z) (o : @writer F Frame) (w : @world F Frame),
    captures w = (cs ++ [seek k c0])%list ->
    writers w = (ws ++ [o])%list ->
    (0 <= k)%Z ->
    rounds = Z.to_nat (end_frame + 1 - k) ->
    let written := firstn rounds (skipn (Z.to_nat k) (frames v)) in
    App.write_loop env rounds (List.length cs) (List.length ws) k end_frame w
    = (Return tt,
       set_writers
         (set_captures w
            (cs ++ [seek (k + Z.of_nat (List.length written)) c0]))
         (ws ++ [write_all written o])).
Proof.
  intros Hv Hopen. induction rounds as [|rounds IH]; intros k o w Hc Hw Hk Hr.
  - simpl. unfold App.ret. rewrite Z.add_0_r. f_equal. symmetry.
    now apply world_eta.
  - cbn [App.write_loop].
    destruct (Z.leb_spec k end_frame) as [Hle|Hgt]; [|lia].
    unfold App.mbind. cbn [App.cap_read Ideal.env].
    rewrite Hc, nth_error_snoc. unfold current. cbn [source cap_open pos seek].
    rewrite Hv, Hopen. destruct (Z.leb_spec 0 k) as [_|]; [|lia].
    destruct (nth_error (frames v) (Z.to_nat k)) as [f|] eqn:En.
    + cbn [App.out_write Ideal.env].
      rewrite update_snoc.
      change (writers (set_captures w (cs ++ [advance (seek k c0)])))
        with (writers w).
      rewrite Hw, update_snoc.
      rewrite (IH (k + 1)%Z (append_frame f o)); try reflexivity; try lia.
      rewrite (skipn_nth_error_some _ _ _ En).
      replace (Z.to_nat (k + 1)) with (S (Z.to_nat k)) by lia.
      cbn [firstn List.length write_all fold_left].
      unfold set_writers, set_captures. cbn.
      do 3 f_equal. f_equal. unfold seek. f_equal. lia.
    + rewrite (skipn_nth_error_none _ _ En). unfold App.ret.
      cbn [firstn List.length write_all fold_left]. rewrite Z.add_0_r.
      f_equal. symmetry. now apply world_eta.
Qed.

Lemma slice_length (l : list Frame) (lo hi : Z) :
  (0 <= lo <= hi)%Z -> (hi <= Z.of_nat (List.length l))%Z ->
  (Z.abs (Z.of_nat (List.length (slice lo hi l)) - (hi - lo + 1)) <= 1)%Z /\
  ((hi < Z.of_nat (List.length l))%Z ->
   Z.of_nat (List.length (slice lo hi l)) = (hi - lo + 1)%Z).
Proof.
  intros H1 H2. unfold slice. rewrite List.length_firstn, List.length_skipn.
  split; lia.
Qed.

(** The run of the extractor on a video that opens, in closed form. *)
Lemma ideal_extract_run (w : @world F Frame) (input_path output_path : string)
    (start_time end_time : F) (v : @video F Frame)
    (wd ht start_frame end_frame : Z) :
  files w input_path = Some v -> opens v = true ->
  to_int (width v) = Return wd -> to_int (height v) = Return ht ->
  to_int (fmul start_time (fps v)) = Return start_frame ->
  to_int (fmul end_time (fps v)) = Return end_frame ->
  (0 <= start_frame)%Z ->
  let written := slice start_frame end_frame (frames v) in
  App._extract_video_segment env input_path output_path start_time end_time w
  = (Return true,
     set_writers
       (set_captures w
          (captures w ++
           [{| source := Some v; cap_open := false;
               pos := start_frame + Z.of_nat (List.length written) |}]))
       (writers w ++
        [{| out_path := output_path; out_fourcc := fourcc "mp4v";
            out_fps := fps v; out_size := (wd, ht);
            out_frames := written; out_open := false |}])).
Proof.
  intros Hfile Hopens Hwd Hht Hsf Hef Hpos written.
  unfold App._extract_video_segment, App.try_except, App.extract_body.
  unfold App.mbind at 1. cbn [App.VideoCapture Ideal.env].
  unfold open_capture. rewrite Hfile, Hopens.
  set (c0 := {| source := Some v; cap_open := true; pos := 0 |}).
  unfold App.mbind at 1. cbn [App.isOpened Ideal.env].
  cbn [captures set_captures]. rewrite nth_error_snoc.
  cbn [cap_open c0 negb].
  unfold App.mbind at 1. cbn [App.cap_get Ideal.env].
  cbn [captures set_captures]. rewrite nth_error_snoc.
  unfold App.mbind at 1. cbn [App.cap_get Ideal.env].
  cbn [captures set_captures]. rewrite nth_error_snoc.
  unfold App.mbind at 1, App.lift at 1.
  cbn [get_prop c0 source cap_open]. rewrite Hwd.
  unfold App.mbind at 1. cbn [App.cap_get Ideal.env].
  cbn [captures set_captures]. rewrite nth_error_snoc.
  unfold App.mbind at 1, App.lift at 1.
  cbn [get_prop c0 source cap_open]. rewrite Hht.
  unfold App.mbind at 1. cbn [App.VideoWriter_fourcc Ideal.env].
  unfold App.mbind at 1. cbn [App.VideoWriter Ideal.env].
  unfold App.mbind at 1, App.lift at 1. rewrite Hsf.
  unfold App.mbind at 1, App.lift at 1. rewrite Hef.
  unfold App.mbind at 1. cbn [App.cap_set Ideal.env].
  cbn [captures set_captures set_writers writers]. rewrite update_snoc.
  set (o0 := {| out_path := output_path; out_fourcc := fourcc "mp4v";
                out_fps := fps v; out_size := (wd, ht);
                out_frames := []; out_open := true |}).
  unfold App.mbind at 1.
  rewrite (ideal_write_loop v c0 (captures w) (writers w) end_frame
             eq_refl eq_refl _ start_frame o0);
    try reflexivity; try assumption.
  fold (slice start_frame end_frame (frames v)). fold written.
  unfold App.mbind at 1. cbn [App.cap_release Ideal.env].
  cbn [captures set_captures set_writers writers]. rewrite update_snoc.
  unfold App.mbind at 1. cbn [App.out_release Ideal.env].
  cbn [captures set_captures set_writers writers]. rewrite update_snoc.
  unfold App.ret. rewrite write_all_open by reflexivity.
  reflexivity.
Qed.

(** On these runs, which end normally or at the end of the stream, the
    capture and the writer are released. *)
Lemma extract_releases_on_success (w : @world F Frame)
    (input_path output_path : string) (start_time end_time : F)
    (v : @video F Frame) (wd ht start_frame end_frame : Z) :
  files w input_path = Some v -> opens v = true ->
  to_int (width v) = Return wd -> to_int (height v) = Return ht ->
  to_int (fmul start_time (fps v)) = Return start_frame ->
  to_int (fmul end_time (fps v)) = Return end_frame ->
  (0 <= start_frame)%Z ->
  all_released w = true ->
  all_released
    (snd (App._extract_video_segment env input_path output_path start_time
            end_time w)) = true.
Proof.
  intros Hfile Hopens Hwd Hht Hsf Hef Hpos Hw.
  rewrite (ideal_extract_run w input_path output_path start_time end_time v
             wd ht start_frame end_frame) by assumption.
  unfold all_released in *. cbn [snd captures writers set_captures set_writers].
  apply andb_true_iff in Hw as [Hc Ho].
  rewrite !forallb_app, Hc, Ho. reflexivity.
Qed.

(** C3.  On a video that opens, with the frame numbers
    [start_frame = int(start_time * fps)] and
    [end_frame = int(end_time * fps)] within the video
    ([0 <= start_frame <= end_frame <= number of frames], which is what
    [start < end] within the duration gives), the extractor returns
    [True] and leaves one new writer; its frames are the frames
    [start_frame..end_frame] of the source, both ends included, as far as
    they exist; their number is [end_frame - start_frame + 1] within one,
    and exactly that when [end_frame] is a frame of the video; its frame
    rate and size are those of the source. *)
Theorem extract_segment_frames (w : @world F Frame)
    (input_path output_path : string) (start_time end_time : F)
    (v : @video F Frame) (wd ht start_frame end_frame : Z) :
  files w input_path = Some v -> opens v = true ->
  to_int (width v) = Return wd -> to_int (height v) = Return ht ->
  to_int (fmul start_time (fps v)) = Return start_frame ->
  to_int (fmul end_time (fps v)) = Return end_frame ->
  (0 <= start_frame <= end_frame)%Z ->
  (end_frame <= Z.of_nat (List.length (frames v)))%Z ->
  exists (w' : @world F Frame) (o : @writer F Frame),
    App._extract_video_segment env input_path output_path start_time end_time w
    = (Return true, w') /\
    writers w' = (writers w ++ [o])%list /\
    out_path o = output_path /\
    out_fps o = fps v /\
    out_size o = (wd, ht) /\
    out_frames o = slice start_frame end_frame (frames v) /\
    (Z.abs (Z.of_nat (List.length (out_frames o))
            - (end_frame - start_frame + 1)) <= 1)%Z /\
    ((end_frame < Z.of_nat (List.length (frames v)))%Z ->
     Z.of_nat (List.length (out_frames o)) = (end_frame - start_frame + 1)%Z).
Proof.
  intros Hfile Hopens Hwd Hht Hsf Hef Hrange Hend.
  eexists _, _. split.
  - apply (ideal_extract_run w input_path output_path start_time end_time v
             wd ht start_frame end_frame); try assumption. lia.
  - cbn [writers set_writers out_path out_fps out_size out_frames].
    repeat split; try reflexivity; now apply slice_length.
Qed.

End IdealExtractor.

(** ** Runs on the clip *)

Section Runs.

Import Ideal.

Lemma extract_segment_clip :
  exists (w' : world nat) (o : writer nat),
    App._extract_video_segment ideal_env "match.mp4" "match_subset.mp4"
      half_second one_and_a_half fresh_world = (Return true, w') /\
    writers w' = (writers fresh_world ++ [o])%list /\
    out_path o = "match_subset.mp4" /\
    out_fps o = fps clip /\
    out_size o = (640, 480)%Z /\
    out_frames o = slice 15 45 (frames clip) /\
    (Z.abs (Z.of_nat (List.length (out_frames o)) - (45 - 15 + 1)) <= 1)%Z /\
    ((45 < Z.of_nat (List.length (frames clip)))%Z ->
     Z.of_nat (List.length (out_frames o)) = (45 - 15 + 1)%Z).
Proof.
  apply (extract_segment_frames nat (Float64.of_Z 0) fresh_world
           "match.mp4" "match_subset.mp4" half_second one_and_a_half clip
           640 480 15 45); try reflexivity.
  - lia.
  - simpl. lia.
Defined.

(** C4 (as stated, refuted).  On a file that does not open as a video
    the extractor returns [False]; it does not fail with an [IOError]
    ([OSError] in Python 3). *)
Lemma extract_broken_no_error :
  fst (App._extract_video_segment ideal_env "broken.mp4" "broken_subset.mp4"
         half_second one_and_a_half fresh_world) = Return false /\
  forall msg,
    fst (App._extract_video_segment ideal_env "broken.mp4" "broken_subset.mp4"
           half_second one_and_a_half fresh_world) <> Raise (OSError msg).
Proof. split; [reflexivity | discriminate]. Qed.

Lemma extract_unopened_broken :
  App._extract_video_segment ideal_env "broken.mp4" "broken_subset.mp4"
    half_second one_and_a_half fresh_world
  = (Return false,
     set_captures fresh_world
       [{| source := Some broken; cap_open := false; pos := 0 |}]).
Proof.
  apply (extract_unopened_returns_false ideal_env "broken.mp4"
           "broken_subset.mp4" half_second one_and_a_half fresh_world).
  exists 0, (set_captures fresh_world
               [{| source := Some broken; cap_open := false; pos := 0 |}]).
  split; reflexivity.
Defined.

(** C5 (the code at the failing input).  With both times given and a video
    that does not open, the extraction returns [False], and the video
    handed to the AI client is still the subset path, a file that was
    never written, not the original video. *)
Theorem analyze_broken_uses_subset :
  fst (App._extract_video_segment ideal_env "broken.mp4" "broken_subset.mp4"
         half_second one_and_a_half fresh_world) = Return false /\
  analysed
    (snd (App.analyze_grappling_match ideal_env "broken.mp4" "top" true ""
            (Some half_second) (Some one_and_a_half) fresh_world))
  = [("broken_subset.mp4", App.analyze_grappling_match_prompt "top" true "")] /\
  on_disk
    (snd (App._extract_video_segment ideal_env "broken.mp4" "broken_subset.mp4"
            half_second one_and_a_half fresh_world))
    "broken_subset.mp4" = false.
Proof. repeat split; reflexivity. Qed.

(** C6 (the code at the failing input).  With [end_time = float('inf')]
    the conversion [int(end_time * fps)] raises after the capture and the
    writer have been created; the extractor returns [False] and both are
    left open. *)
Theorem extract_leaks_on_exception :
  let r := App._extract_video_segment ideal_env "match.mp4" "match_subset.mp4"
             half_second infinity fresh_world in
  fst r = Return false /\
  map cap_open (captures (snd r)) = [true] /\
  map out_open (writers (snd r)) = [true] /\
  all_released (snd r) = false /\
  stdout (snd r) =
  ["Error extracting video segment: cannot convert float infinity to integer"].
Proof. repeat split; reflexivity. Qed.

End Runs.

(** ** Frame numbers of a range within the duration *)

Module ExactFacts.

Import QArith Qround.

Lemma trunc_floor (q : Q) : 0 <= q -> Exact.trunc q = Qfloor q.
Proof.
  destruct q as [n d]. unfold Qle, Exact.trunc, Qfloor. simpl. intros H.
  apply Z.quot_div_nonneg; lia.
Qed.

(** In exact arithmetic, times with [0 <= start < end] and [end] within
    the duration of a video of [n] frames give frame numbers with
    [0 <= start_frame <= end_frame <= n]. *)
Lemma frames_within_duration (start_time end_time rate : Q) (n : nat) :
  0 <= start_time -> start_time < end_time -> 0 < rate ->
  end_time * rate <= inject_Z (Z.of_nat n) ->
  exists start_frame end_frame : Z,
    @to_int Q Exact.PyFloat_Q (@fmul Q Exact.PyFloat_Q start_time rate)
    = Return start_frame /\
    @to_int Q Exact.PyFloat_Q (@fmul Q Exact.PyFloat_Q end_time rate)
    = Return end_frame /\
    (0 <= start_frame <= end_frame)%Z /\
    (end_frame <= Z.of_nat n)%Z.
Proof.
  intros H0 Hlt Hrate Hend.
  assert (Hs : 0 <= start_time * rate)
    by (apply Qmult_le_0_compat; [assumption | now apply Qlt_le_weak]).
  assert (Hse : start_time * rate <= end_time * rate)
    by (apply Qmult_le_compat_r; now apply Qlt_le_weak).
  assert (He : 0 <= end_time * rate) by (eapply Qle_trans; eassumption).
  exists (Exact.trunc (start_time * rate)), (Exact.trunc (end_time * rate)).
  repeat split; try reflexivity; rewrite !trunc_floor by assumption.
  - change 0%Z with (Qfloor (inject_Z 0)). now apply Qfloor_resp_le.
  - now apply Qfloor_resp_le.
  - rewrite <- (Qfloor_Z (Z.of_nat n)). now apply Qfloor_resp_le.
Qed.

End ExactFacts.

(** ** Trimming twice, replacing, and [generate_mermaid] *)

Section Mermaid.

Import Functions.

Lemma lstrip_id (s : string) :
  space_opt (first_char s) = false -> lstrip s = s.
Proof. destruct s as [|c s]; simpl; [reflexivity|]. now intros ->. Qed.

Lemma rstrip_id (s : string) :
  space_opt (last_char s) = false -> rstrip s = s.
Proof.
  induction s as [|c s IH]; [reflexivity|].
  destruct s as [|d s].
  - simpl. now intros ->.
  - intros H. change (last_char (String c (String d s)))
      with (last_char (String d s)) in H.
    change (rstrip (String c (String d s)))
      with (match rstrip (String d s) with
            | "" => if isspace c then "" else String c ""
            | r => String c r
            end).
    now rewrite (IH H).
Qed.

Lemma strip_idem (s : string) : strip (strip s) = strip s.
Proof.
  destruct (strip_trimmed s) as (a & b & _ & _ & _ & Hf & Hl).
  unfold strip at 1. now rewrite (lstrip_id _ Hf), (rstrip_id _ Hl).
Qed.

Lemma concat_cons (sep a : string) (l : list string) :
  l <> [] -> String.concat sep (a :: l) = a ++ sep ++ String.concat sep l.
Proof. destruct l; [easy | reflexivity]. Qed.

Lemma split_rounds_not_nil (r : nat) (sep s : string) :
  split_rounds r sep s <> [].
Proof.
  destruct r; simpl; destruct (partition sep s) as [[a b]|]; discriminate.
Qed.

(** [replace] joins the parts of [split] with the new text. *)
Lemma replace_concat (old new s : string) :
  replace old new s = String.concat new (split old s).
Proof.
  unfold replace, split. generalize (String.length s) as r. intros r.
  revert s. induction r as [|r IH]; intros s; simpl;
    destruct (partition old s) as [[a b]|]; try reflexivity.
  rewrite concat_cons by apply split_rounds_not_nil. now rewrite IH.
Qed.

Lemma replace_eq (old new s : string) :
  old <> "" ->
  replace old new s =
  match partition old s with
  | None => s
  | Some (a, b) => a ++ new ++ replace old new b
  end.
Proof.
  intros Hold. rewrite replace_concat, split_eq by assumption.
  destruct (partition old s) as [[a b]|]; [|reflexivity].
  rewrite concat_cons by now apply split_not_nil.
  now rewrite replace_concat.
Qed.

Lemma last_char_app (s : string) (c : ascii) :
  last_char s = Some c -> exists s0, s = s0 ++ String c "".
Proof.
  induction s as [|x s IH]; [discriminate|].
  destruct s as [|y s].
  - simpl. intros [= ->]. now exists "".
  - intros H. destruct (IH H) as (s0 & Hs0). exists (String x s0).
    simpl. now rewrite <- Hs0.
Qed.

Lemma last_char_cons (x : ascii) (s : string) (c : ascii) :
  last_char s = Some c -> last_char (String x s) = Some c.
Proof. destruct s; [discriminate | trivial]. Qed.

Lemma contains_cons (sub s : string) (x : ascii) :
  contains sub s = true -> contains sub (String x s) = true.
Proof. intros H. simpl. rewrite H. apply orb_true_r. Qed.

(** A fence in [a ++ r] lies in [a], lies in [r], or starts with the
    last character of [a]. *)
Lemma fence_app_cases (a r : string) :
  contains "```" (a ++ r) = true ->
  contains "```" a = true \/ contains "```" r = true \/
  last_char a = Some "`"%char.
Proof.
  induction a as [|x a IH]; intros H; [now right; left|].
  change (contains "```" (String x (a ++ r)) = true) in H.
  change (contains "```" (String x (a ++ r)))
    with (startswith "```" (String x (a ++ r)) || contains "```" (a ++ r)) in H.
  apply orb_true_iff in H as [H|H].
  - change (startswith "```" (String x (a ++ r)))
      with (Ascii.eqb "`" x && startswith "``" (a ++ r)) in H.
    apply andb_true_iff in H as [Hx H]. apply Ascii.eqb_eq in Hx. subst x.
    destruct a as [|y a]; [now right; right|].
    change (startswith "``" (String y (a ++ r)))
      with (Ascii.eqb "`" y && startswith "`" (a ++ r)) in H.
    apply andb_true_iff in H as [Hy H]. apply Ascii.eqb_eq in Hy. subst y.
    destruct a as [|z a]; [now right; right|].
    change (startswith "`" (String z (a ++ r)))
      with (Ascii.eqb "`" z && true) in H.
    apply andb_true_iff in H as [Hz _]. apply Ascii.eqb_eq in Hz. subst z.
    left. reflexivity.
  - destruct (IH H) as [Ha | [Hr | Hl]].
    + left. now apply contains_cons.
    + right. now left.
    + right. right. now apply last_char_cons.
Qed.

Lemma leftmost_fence_end (s a b : string) :
  leftmost "```" s a b -> last_char a <> Some "`"%char.
Proof.
  intros [Hs Hmin] Hl. destruct (last_char_app _ _ Hl) as (a0 & ->).
  specialize (Hmin a0 ("`" ++ b)).
  rewrite app_assoc in Hs. specialize (Hmin Hs).
  rewrite length_app in Hmin. simpl in Hmin. lia.
Qed.

(** After every fence has been removed, none is left. *)
Lemma replace_fence_free (s : string) : ~ occurs "```" (replace "```" "" s).
Proof.
  rewrite replace_concat.
  apply (split_ind "```" (fun s l => ~ occurs "```" (String.concat "" l)));
    [discriminate | |].
  - intros s0 E. simpl. now apply contains_false_iff, partition_none.
  - intros s0 a b E IH.
    rewrite concat_cons by (apply split_not_nil; discriminate).
    simpl (_ ++ _). intros O. apply contains_iff in O.
    apply partition_some in E.
    destruct (fence_app_cases _ _ O) as [Ha | [Hr | Hl]].
    + apply contains_iff in Ha. revert Ha.
      eapply leftmost_before; [|exact E]. discriminate.
    + apply IH. now apply contains_iff.
    + now apply (leftmost_fence_end _ _ _ E).
Qed.

Lemma fence_in_opening (s : string) :
  occurs "```mermaid" s -> occurs "```" s.
Proof.
  apply occurs_trans. exists "", "mermaid". reflexivity.
Qed.

Lemma generate_mermaid_fenced (s : string) :
  contains "```mermaid" s = true ->
  ~ occurs "```" (generate_mermaid s) /\
  strip (generate_mermaid s) = generate_mermaid s.
Proof.
  intros H. unfold generate_mermaid. rewrite H. split.
  - intros O. apply (replace_fence_free (replace "```mermaid" "" s)).
    eapply occurs_trans; [exact O | apply strip_occurs].
  - apply strip_idem.
Qed.

Lemma generate_mermaid_plain (s : string) :
  contains "```mermaid" s = false -> generate_mermaid s = s.
Proof. intros H. unfold generate_mermaid. now rewrite H. Qed.

(** X1.  [generate_mermaid] returns a text without the opening fence as
    it is; a text with the opening fence comes back with no Markdown
    fence left anywhere in it and with no white space around it. *)
Theorem generate_mermaid_cleans (mermaid_object : string) :
  if contains "```mermaid" mermaid_object
  then ~ occurs "```" (generate_mermaid mermaid_object) /\
       strip (generate_mermaid mermaid_object) = generate_mermaid mermaid_object
  else generate_mermaid mermaid_object = mermaid_object.
Proof.
  destruct (contains "```mermaid" mermaid_object) eqn:E.
  - now apply generate_mermaid_fenced.
  - now apply generate_mermaid_plain.
Qed.

(** X2.  Cleaning is idempotent: a cleaned diagram goes through
    [generate_mermaid] unchanged. *)
Theorem generate_mermaid_idempotent (mermaid_object : string) :
  generate_mermaid (generate_mermaid mermaid_object)
  = generate_mermaid mermaid_object.
Proof.
  destruct (contains "```mermaid" mermaid_object) eqn:E.
  - apply generate_mermaid_plain. apply contains_false_iff. intros O.
    apply (proj1 (generate_mermaid_fenced _ E)). now apply fence_in_opening.
  - now rewrite !(generate_mermaid_plain _ E).
Qed.

Lemma contains_char_app (c : ascii) (a b : string) :
  contains (String c "") (a ++ b)
  = contains (String c "") a || contains (String c "") b.
Proof.
  induction a as [|x a IH]; [reflexivity|].
  change (contains (String c "") (String x a ++ b))
    with (Ascii.eqb c x && true || contains (String c "") (a ++ b)).
  change (contains (String c "") (String x a))
    with (Ascii.eqb c x && true || contains (String c "") a).
  rewrite IH. now rewrite orb_assoc.
Qed.

Lemma partition_startswith (sep s : string) :
  startswith sep s = true ->
  partition sep s = Some ("", drop (String.length sep) s).
Proof. intros H. destruct s; simpl partition; now rewrite H. Qed.

(** Where the first character of [sep] does not occur in [p], the
    leftmost [sep] of [p ++ sep ++ b] is the one written. *)
Lemma partition_skip (c : ascii) (sep' p b : string) :
  contains (String c "") p = false ->
  partition (String c sep') (p ++ String c sep' ++ b) = Some (p, b).
Proof.
  induction p as [|x p IH]; intros H.
  - change ("" ++ String c sep' ++ b) with (String c sep' ++ b).
    rewrite partition_startswith by apply startswith_app.
    now rewrite drop_app.
  - change (contains (String c "") (String x p))
      with (Ascii.eqb c x && true || contains (String c "") p) in H.
    apply orb_false_iff in H as [Hx Hp]. rewrite andb_true_r in Hx.
    change ((String x p) ++ String c sep' ++ b)
      with (String x (p ++ String c sep' ++ b)).
    change (partition (String c sep') (String x (p ++ String c sep' ++ b)))
      with (if Ascii.eqb c x && startswith sep' (p ++ String c sep' ++ b)
            then Some ("", drop (String.length (String c sep'))
                             (String x (p ++ String c sep' ++ b)))
            else match partition (String c sep') (p ++ String c sep' ++ b) with
                 | Some (a0, b0) => Some (String x a0, b0)
                 | None => None
                 end).
    rewrite Hx, (IH Hp). reflexivity.
Qed.

Lemma rstrip_blank (b : string) : blank b = true -> rstrip b = "".
Proof.
  induction b as [|c b IH]; [reflexivity|]. simpl. intros H.
  apply andb_true_iff in H as [Hc Hb]. now rewrite (IH Hb), Hc.
Qed.

Lemma rstrip_app_blank (x b : string) :
  blank b = true -> rstrip (x ++ b) = rstrip x.
Proof.
  intros Hb. induction x as [|c x IH]; [now apply rstrip_blank|].
  simpl. now rewrite IH.
Qed.

Lemma lstrip_blank (b : string) : blank b = true -> lstrip b = "".
Proof.
  induction b as [|c b IH]; [reflexivity|]. simpl. intros H.
  apply andb_true_iff in H as [Hc Hb]. now rewrite Hc, (IH Hb).
Qed.

(** White space added around a text does not change what [strip] gives. *)
Lemma strip_padded (a x b : string) :
  blank a = true -> blank b = true -> strip (a ++ x ++ b) = strip x.
Proof.
  intros Ha Hb. unfold strip.
  induction a as [|c a IH].
  - simpl (_ ++ _). clear Ha. induction x as [|c x IHx].
    + simpl. rewrite (lstrip_blank _ Hb). reflexivity.
    + simpl. destruct (isspace c); [exact IHx|].
      now rewrite <- (rstrip_app_blank (String c x) b Hb).
  - simpl in Ha. apply andb_true_iff in Ha as [Hc Ha].
    simpl. rewrite Hc. now apply IH.
Qed.

Lemma generate_mermaid_fenced_body (body : string) :
  contains "`" body = false -> generate_mermaid (fenced body) = strip body.
Proof.
  intros Hbody. unfold generate_mermaid, fenced.
  assert (Hp : contains "`" (nl ++ body ++ nl) = false).
  { unfold nl. rewrite !contains_char_app, Hbody. reflexivity. }
  assert (P3 : partition "```" ((nl ++ body ++ nl) ++ "```" ++ "")
               = Some (nl ++ body ++ nl, ""))
    by now apply partition_skip.
  assert (Hrest : (nl ++ body ++ nl) ++ "```" ++ "" = nl ++ body ++ nl ++ "```")
    by now rewrite !app_assoc.
  rewrite Hrest in P3.
  assert (Nm : partition "```mermaid" (nl ++ body ++ nl ++ "```") = None).
  { destruct (partition "```mermaid" (nl ++ body ++ nl ++ "```"))
      as [[a' b']|] eqn:E; [|reflexivity]. exfalso.
    apply partition_some in E as [E _]. apply partition_some in P3 as [P3 M3].
    pose proof (M3 a' ("mermaid" ++ b') E) as L.
    pose proof (f_equal String.length E) as L1.
    pose proof (f_equal String.length P3) as L2.
    rewrite L1 in L2.
    repeat rewrite length_app in L2. repeat rewrite length_app in L.
    change (String.length "```mermaid") with 10 in L2.
    change (String.length "```") with 3 in L2.
    change (String.length "") with 0 in L2. lia. }
  assert (C : contains "```mermaid" ("```mermaid" ++ nl ++ body ++ nl ++ "```")
              = true)
    by exact (contains_app "" "```mermaid" (nl ++ body ++ nl ++ "```")).
  assert (P1 : partition "```mermaid"
                 ("```mermaid" ++ nl ++ body ++ nl ++ "```")
               = Some ("", nl ++ body ++ nl ++ "```"))
    by exact (partition_skip "`" "``mermaid" "" (nl ++ body ++ nl ++ "```")
                eq_refl).
  rewrite C. rewrite (replace_eq "```mermaid") by discriminate. rewrite P1.
  rewrite (replace_eq "```mermaid" "" (nl ++ _)) by discriminate.
  rewrite Nm. cbn [append].
  rewrite (replace_eq "```") by discriminate. rewrite P3.
  change (replace "```" "" "") with "". cbn [append]. rewrite !app_nil_r.
  now apply strip_padded.
Qed.

(** X3.  Unwrapping: an answer that wraps a diagram in Markdown fences
    (opening fence, newline, diagram, newline, closing fence) is cleaned
    to the diagram itself, trimmed, whenever the diagram holds no
    backquote. *)
Theorem generate_mermaid_unwraps (body : string) :
  ~ occurs "`" body -> generate_mermaid (fenced body) = strip body.
Proof.
  intros H. apply generate_mermaid_fenced_body. now apply contains_false_iff.
Qed.

End Mermaid.

Lemma generate_mermaid_unwraps_armbar :
  Functions.generate_mermaid (fenced armbar_diagram) = armbar_diagram.
Proof.
  apply (generate_mermaid_unwraps armbar_diagram).
  apply contains_false_iff. reflexivity.
Defined.

(** ** More on navigation *)

Section NavigationMore.

Import Functions.

Lemma before_free (sep s : string) : sep <> "" -> ~ occurs sep (before sep s).
Proof.
  intros Hsep. unfold before. destruct (partition sep s) as [[a b]|] eqn:E.
  - eapply leftmost_before; [exact Hsep | exact (partition_some _ _ _ _ E)].
  - now apply contains_false_iff, partition_none.
Qed.

Lemma before_occurs (sep s : string) : occurs (before sep s) s.
Proof.
  unfold before. destruct (partition sep s) as [[a b]|] eqn:E.
  - apply partition_some in E as [-> _]. exists "", (sep ++ b). reflexivity.
  - apply occurs_refl.
Qed.

Lemma after_occurs (sep s : string) : occurs (after sep s) s.
Proof.
  unfold after. destruct (partition sep s) as [[a b]|] eqn:E.
  - apply partition_some in E as [-> _]. exists (a ++ sep), "".
    now rewrite app_nil_r, app_assoc.
  - exists "", s. reflexivity.
Qed.

Lemma line_label_clean (line : string) :
  ~ occurs nl line ->
  strip (line_label line) = line_label line /\
  ~ occurs "[" (line_label line) /\
  ~ occurs "-->" (line_label line) /\
  ~ occurs nl (line_label line).
Proof.
  intros Hline. unfold line_label. repeat split.
  - apply strip_idem.
  - intros O. apply (before_free "[" (before "-->" (after "-->" line)));
      [discriminate|].
    eapply occurs_trans; [exact O | apply strip_occurs].
  - intros O. apply (before_free "-->" (after "-->" line)); [discriminate|].
    eapply occurs_trans; [exact O|].
    eapply occurs_trans; [apply strip_occurs | apply before_occurs].
  - intros O. apply Hline.
    eapply occurs_trans; [exact O|].
    eapply occurs_trans; [apply strip_occurs|].
    eapply occurs_trans; [apply before_occurs|].
    eapply occurs_trans; [apply before_occurs | apply after_occurs].
Qed.

(** X4.  A node resolved by [next_move] is a clean token: it has no white
    space around it and holds no bracket, no arrow and no line break. *)
Theorem resolved_label_clean (flow_chart move_text label : string) :
  resolve_next_node flow_chart move_text = Some label ->
  strip label = label /\
  ~ occurs "[" label /\ ~ occurs "-->" label /\ ~ occurs nl label.
Proof.
  rewrite resolve_find.
  destruct (List.find _ _) as [line|] eqn:E; [|discriminate].
  intros [= <-]. apply line_label_clean.
  apply List.find_some in E as [Hin _].
  apply (split_parts nl _ _ ltac:(discriminate) Hin).
Qed.

Lemma contains_empty (s : string) : contains "" s = true.
Proof. destruct s; reflexivity. Qed.

(** X5.  With an empty chosen text every statement matches: the first
    line of the chart that holds an arrow decides, whatever it says. *)
Theorem resolve_empty_choice (flow_chart : string) :
  resolve_next_node flow_chart "" =
  option_map line_label
    (List.find (contains "-->") (split nl (strip flow_chart))).
Proof.
  rewrite resolve_find. f_equal. apply find_same. intros line.
  unfold selects. now rewrite contains_empty.
Qed.

Section Client.

Variable genai : GenAI.

(** A chosen text that occurs nowhere in the flow chart resolves to
    nothing, so the check the [Flow] handler makes first never rejects a
    move that [next_move] could have followed. *)
Lemma next_move_absent_text
    (flow_chart move_text measurables favorite_ideas : string) (isMMA : bool) :
  contains move_text flow_chart = false ->
  resolve_next_node flow_chart move_text = None /\
  next_move genai flow_chart move_text measurables isMMA favorite_ideas
  = Return flow_chart.
Proof.
  intros H.
  assert (R : resolve_next_node flow_chart move_text = None).
  { destruct (resolve_next_node flow_chart move_text) as [node|] eqn:R;
      [|reflexivity].
    apply resolve_found in R. congruence. }
  split; [exact R|]. unfold next_move. now rewrite R.
Qed.

Import Flow.



Lemma generate_button_frame (st : session_state)
    (attributes position_variable : string) (isMMA : bool) (ideas : string) :
  let st' := state (generate_button genai st attributes position_variable
                      isMMA ideas) in
  current_image st' = current_image st /\
  current_chat st' = current_chat st /\
  current_video st' = current_video st /\
  current_attributes st' = current_attributes st.
Proof.
  cbv zeta. unfold generate_button.
  destruct (negb (truthy position_variable)); [now repeat split|].
  destruct (generate_flow_chart _ _ _ _ _); now repeat split.
Qed.

Lemma flow_button_frame (st : session_state)
    (flowchart chosen_next : string) (isMMA : bool) (ideas : string) :
  let st' := state (flow_button genai st flowchart chosen_next isMMA ideas) in
  current_image st' = current_image st /\
  current_chat st' = current_chat st /\
  current_video st' = current_video st /\
  current_attributes st' = current_attributes st.
Proof.
  cbv zeta. unfold flow_button.
  destruct (negb (contains chosen_next flowchart)); [now repeat split|].
  destruct (next_move _ _ _ _ _ _); now repeat split.
Qed.

Lemma analyze_attributes_frame (st : session_state) (position_variable : string) :
  let st' := state (snd (analyze_attributes genai st position_variable)) in
  current_image st' = current_image st /\
  current_chat st' = current_chat st /\
  current_video st' = current_video st /\
  current_flowchart st' = current_flowchart st /\
  (current_attributes st' = current_attributes st \/
   exists image, current_image st = Some image /\
                 get_attributes genai image position_variable
                 = Return (current_attributes st')).
Proof.
  cbv zeta. unfold analyze_attributes.
  destruct (current_image st) as [image|] eqn:Ei;
    [|cbn [snd state]; repeat split; auto].
  destruct (truthy image && truthy position_variable);
    [|cbn [snd state]; repeat split; auto].
  destruct (get_attributes genai image position_variable) as [a|e] eqn:Ea;
    cbn [snd state]; repeat split; auto.
  right. exists image. now split.
Qed.

(** X7.  Whatever the inputs and whatever the AI service answers, a run of
    the FLOW Chart Generator screen never touches the current image, the
    chat or the current video; and it changes the current attributes only
    to what [get_attributes] returned for the current image in that run. *)
Theorem flow_screen_frame (st : session_state) (i : inputs) :
  let st' := state (flow_chart_generator genai st i) in
  current_image st' = current_image st /\
  current_chat st' = current_chat st /\
  current_video st' = current_video st /\
  (current_attributes st' = current_attributes st \/
   exists image, current_image st = Some image /\
                 get_attributes genai image (position_variable i)
                 = Return (current_attributes st')).
Proof.
  cbv zeta. unfold flow_chart_generator.
  pose proof (analyze_attributes_frame st (position_variable i)) as H1.
  destruct (analyze_attributes genai st (position_variable i)) as [attributes r1].
  cbn [snd] in H1. cbv zeta in H1.
  destruct H1 as (I1 & C1 & V1 & _ & A1).
  cbv zeta.
  set (isMMA := String.eqb (rules i) "Unified MMA").
  set (r2 := if generate_clicked i then _ else _).
  assert (H2 : current_image (state r2) = current_image (state r1) /\
               current_chat (state r2) = current_chat (state r1) /\
               current_video (state r2) = current_video (state r1) /\
               current_attributes (state r2) = current_attributes (state r1)).
  { subst r2. destruct (generate_clicked i); [apply generate_button_frame|].
    now repeat split. }
  destruct H2 as (I2 & C2 & V2 & A2).
  set (st2 := state r2) in *.
  assert (Hst2 : current_image st2 = current_image st /\
                 current_chat st2 = current_chat st /\
                 current_video st2 = current_video st /\
                 (current_attributes st2 = current_attributes st \/
                  exists image, current_image st = Some image /\
                    get_attributes genai image (position_variable i)
                    = Return (current_attributes st2))).
  { rewrite I2, C2, V2, A2. now repeat split. }
  destruct (current_flowchart st2) as [flowchart|]; [|exact Hst2].
  destruct (truthy flowchart); [|exact Hst2].
  destruct (flow_clicked i && truthy (chosen_next i)); [|exact Hst2].
  cbn [state].
  destruct (flow_button_frame st2 flowchart (chosen_next i) isMMA (ideas i))
    as (I3 & C3 & V3 & A3).
  rewrite I3, C3, V3, A3. exact Hst2.
Qed.

End Client.

End NavigationMore.

Lemma resolved_label_clean_armbar :
  strip "B" = "B" /\
  ~ occurs "[" "B" /\ ~ occurs "-->" "B" /\ ~ occurs nl "B".
Proof.
  apply (resolved_label_clean armbar_diagram "armbar" "B"). reflexivity.
Defined.


Section FlowClick.

Import Functions Flow.




End FlowClick.


(** ** [load_masters] *)

Section MastersFacts.

Import Masters.

Lemma blank_app (a b : string) :
  blank (a ++ b) = blank a && blank b.
Proof.
  induction a as [|c a IH]; [reflexivity|]. simpl. rewrite IH.
  now rewrite andb_assoc.
Qed.

(** Trimming leaves nothing exactly when the text is all white space. *)
Lemma strip_empty_iff (s : string) : strip s = "" <-> blank s = true.
Proof.
  split.
  - intros H. destruct (strip_trimmed s) as (a & b & Hs & Ha & Hb & _).
    rewrite H in Hs. rewrite Hs, !blank_app, Ha, Hb. reflexivity.
  - intros H. unfold strip. now rewrite (lstrip_blank _ H).
Qed.

(** X8.  Every name [load_masters] returns, read from the file or built
    in, is non-empty and has no white space around it. *)
Theorem load_masters_names_clean (file : file_read) (names : list string) :
  load_masters file = Return names -> Forall clean_name names.
Proof.
  destruct file as [lines| |e]; simpl; [| |discriminate]; intros [= <-].
  - apply Forall_forall. intros name Hin.
    apply in_map_iff in Hin as (line & <- & Hin).
    apply filter_In in Hin as [_ Ht]. split.
    + now apply truthy_iff.
    + apply strip_idem.
  - unfold default_masters.
    repeat (apply Forall_cons; [split; [discriminate | reflexivity]|]).
    apply Forall_nil.
Qed.

(** X9.  A file that is there but holds only blank lines (or none) gives
    an empty list of masters, not the built-in one; and only such a file
    does. *)
Theorem load_masters_blank_file (lines : list string) :
  load_masters (Lines lines) = Return []
  <-> Forall (fun line => blank line = true) lines.
Proof.
  simpl. split.
  - intros [= H]. apply map_eq_nil in H.
    apply Forall_forall. intros line Hin.
    apply strip_empty_iff.
    destruct (strip line) eqn:E; [reflexivity|].
    assert (Hf : In line (filter (fun line => truthy (strip line)) lines))
      by (apply filter_In; split; [assumption | now rewrite E]).
    rewrite H in Hf. destruct Hf.
  - intros H. f_equal.
    induction lines as [|line lines IH]; [reflexivity|].
    inversion H as [|? ? Hl Hr]; subst. simpl.
    apply strip_empty_iff in Hl. rewrite Hl. simpl. now apply IH.
Qed.

End MastersFacts.

Lemma load_masters_names_clean_file :
  Forall clean_name ["Rickson Gracie"; "Helio Gracie"].
Proof.
  apply (load_masters_names_clean
           (Masters.Lines ["  Rickson Gracie " ++ nl; nl; "Helio Gracie"])).
  reflexivity.
Defined.

(** ** The Position Image Recommendations handler *)

Section RecommendFacts.

Import Flow Recommend.

Variable genai : GenAI.

(** X10.  Whatever the inputs and the answers of the AI service, the
    recommendations handler leaves the current image, chat, flow chart and
    video alone, and changes the current attributes only to what
    [get_attributes] returned for the uploaded image; with no image, no
    position or no keywords it asks for them and changes nothing. *)
Theorem recommendations_frame (st : session_state)
    (image_location : option string) (position_variable : string)
    (isMMA : bool) (keywords : string) :
  let r := generate_recommendations genai st image_location position_variable
             isMMA keywords in
  current_image (state r) = current_image st /\
  current_chat (state r) = current_chat st /\
  current_flowchart (state r) = current_flowchart st /\
  current_video (state r) = current_video st /\
  (current_attributes (state r) = current_attributes st \/
   exists image, image_location = Some image /\
                 Functions.get_attributes genai image position_variable
                 = Return (current_attributes (state r))) /\
  (truthy_opt image_location && truthy position_variable && truthy keywords
   = false ->
   r = {| state := st;
          shown := [st_error "Please fill in all fields and upload an image"];
          rerun := false |}).
Proof.
  cbv zeta. unfold generate_recommendations.
  destruct image_location as [image|]; [|repeat split; auto].
  cbn [truthy_opt].
  destruct (truthy image), (truthy position_variable), (truthy keywords);
    cbn [negb orb andb]; try (repeat split; auto; fail).
  destruct (Functions.get_attributes genai image position_variable)
    as [attributes|e] eqn:Ea.
  - destruct (Functions.generate_grappling_plan _ _ _ _ _);
      cbn [state]; repeat split; try discriminate;
      right; exists image; now split.
  - cbn [state]. repeat split; auto. discriminate.
Qed.

(** X11.  The attributes are stored before the recommendations are asked
    for: when [get_attributes] answers and the recommendation call then
    raises, the error is shown and the new attributes stay in the
    session. *)
Theorem recommendations_partial_update (st : session_state)
    (image position_variable : string) (isMMA : bool)
    (keywords attributes : string) (e : exn) :
  image <> "" -> position_variable <> "" -> keywords <> "" ->
  Functions.get_attributes genai image position_variable = Return attributes ->
  generate_image_description genai image
    (Functions.generate_grappling_plan_prompt position_variable isMMA
       (keywords ++ " " ++ attributes)) = Raise e ->
  generate_recommendations genai st (Some image) position_variable isMMA
    keywords =
  {| state := set_attributes st attributes;
     shown := [st_spinner "Analyzing position and generating recommendations...";
               st_error ("An error occurred: " ++ str_exn e)];
     rerun := false |}.
Proof.
  intros Hi Hp Hk Ha He. apply truthy_iff in Hi, Hp, Hk.
  unfold generate_recommendations. rewrite Hi, Hp, Hk, Ha.
  cbn [negb orb]. unfold Functions.generate_grappling_plan. now rewrite He.
Qed.

End RecommendFacts.

Lemma occurs_here (sub post : string) : occurs sub (sub ++ post).
Proof. now exists "", post. Qed.

Ltac occ :=
  solve [ apply occurs_refl
        | apply occurs_here
        | apply contains_iff; vm_compute; reflexivity
        | apply occurs_app_l; occ
        | apply occurs_app_r; occ ].

(** X12.  The prompt the recommendations handler sends, built from the
    position, the ruleset flag and the keywords followed by the
    attributes, holds the position text, the keyword text, the attributes,
    the ruleset label, the bullet-format instruction and the keyword
    clause (the keywords it is given are never empty). *)
Theorem recommendation_prompt_contents
    (position_variable keywords attributes : string) (isMMA : bool) :
  let prompt := Functions.generate_grappling_plan_prompt position_variable
                  isMMA (keywords ++ " " ++ attributes) in
  contains position_variable prompt = true /\
  contains keywords prompt = true /\
  contains attributes prompt = true /\
  contains (if isMMA then "MMA" else "Jiu-jitsu") prompt = true /\
  contains "I want these steps to be listed in quick bullet format" prompt
  = true /\
  contains "I want you to also take special note of the following keywords"
    prompt = true.
Proof.
  cbv zeta. unfold Functions.generate_grappling_plan_prompt.
  assert (T : truthy (keywords ++ " " ++ attributes) = true)
    by (destruct keywords; reflexivity).
  rewrite T. unfold Functions.match_type.
  repeat split; apply contains_iff; occ.
Qed.

Lemma recommendations_partial_update_quota :
  Recommend.generate_recommendations attributes_only_genai armbar_session
    (Some "frame.jpg") "closed guard" true "heavy pressure" =
  {| Flow.state := Flow.set_attributes armbar_session "long limbs";
     Flow.shown :=
       [Flow.st_spinner "Analyzing position and generating recommendations...";
        Flow.st_error "An error occurred: quota exceeded"];
     Flow.rerun := false |}.
Proof.
  apply (recommendations_partial_update attributes_only_genai armbar_session
           "frame.jpg" "closed guard" true "heavy pressure" "long limbs"
           (ServiceError "quota exceeded"));
    try discriminate; reflexivity.
Defined.

(** ** The Master Talk screen *)

Section TalkFacts.

Import Flow Talk.

Variable client : Client.

Lemma pair_ind {A : Type} (P : list A -> Prop) :
  P [] -> (forall a, P [a]) -> (forall a b l, P l -> P (a :: b :: l)) ->
  forall l, P l.
Proof.
  intros H0 H1 H2 l.
  enough (H : P l /\ forall a, P (a :: l)) by apply H.
  induction l as [|x l [IH IH']]; split; auto.
Qed.

Lemma turns_app (chat : list (string * string)) (comment response : string) :
  turns chat ->
  turns (chat ++ [("user", comment); ("assistant", response)]).
Proof.
  induction chat as [|m|[r1 c1] [r2 c2] rest IH] using pair_ind.
  - intros _. exact (conj eq_refl (conj eq_refl I)).
  - destruct m. intros [].
  - intros (-> & -> & H).
    change (turns (("user", c1) :: ("assistant", c2) :: rest
                   ++ [("user", comment); ("assistant", response)])%list)
      with ("user" = "user" /\ "assistant" = "assistant" /\
            turns (rest ++ [("user", comment); ("assistant", response)])).
    repeat split. now apply IH.
Qed.

Lemma well_formed_app (chat : list (string * string))
    (comment response : string) :
  chat <> [] -> well_formed chat ->
  well_formed (chat ++ [("user", comment); ("assistant", response)]).
Proof.
  destruct chat as [|[r c] rest]; [easy|]. intros _ [-> H].
  split; [reflexivity | now apply turns_app].
Qed.

Lemma open_chat_spec (st st1 : session_state) (i : inputs) :
  open_chat client st i = Return st1 ->
  (st1 = st \/
   (current_chat st = [] /\ has_key i = true /\
    exists initial_response,
      st1 = set_chat st [("system", instructions (master_info i));
                         ("user", opening_prompt);
                         ("assistant", initial_response)])) /\
  (has_key i = true -> current_chat st1 <> []).
Proof.
  unfold open_chat. destruct (current_chat st) as [|m chat] eqn:Ec.
  - destruct (has_key i).
    + destruct (generate_text client _ _) as [initial_response|e];
        [|discriminate].
      intros [= <-]. split; [|discriminate].
      right. repeat split. now exists initial_response.
    + intros [= <-]. split; [now left | discriminate].
  - intros [= <-]. split; [now left|]. rewrite Ec. discriminate.
Qed.

(** One run: the chat grows at its end, stays a conversation, and nothing
    else in the session changes. *)
Lemma master_talk_step (st : session_state) (i : inputs) :
  let st' := state (master_talk client st i) in
  (exists added, current_chat st' = (current_chat st ++ added)%list) /\
  (well_formed (current_chat st) -> well_formed (current_chat st')) /\
  current_image st' = current_image st /\
  current_flowchart st' = current_flowchart st /\
  current_video st' = current_video st /\
  current_attributes st' = current_attributes st.
Proof.
  cbv zeta. unfold master_talk.
  destruct (open_chat client st i) as [st1|e] eqn:Eo.
  2:{ cbn [state]. repeat split; auto. exists []. now rewrite List.app_nil_r. }
  destruct (open_chat_spec _ _ _ Eo) as [Hst1 Hkey].
  assert (H1 : (exists added, current_chat st1 = (current_chat st ++ added)%list) /\
               (well_formed (current_chat st) -> well_formed (current_chat st1)) /\
               current_image st1 = current_image st /\
               current_flowchart st1 = current_flowchart st /\
               current_video st1 = current_video st /\
               current_attributes st1 = current_attributes st).
  { destruct Hst1 as [-> | (Hempty & _ & initial_response & ->)].
    - repeat split; auto. exists []. now rewrite List.app_nil_r.
    - cbn [set_chat current_chat current_image current_flowchart
           current_video current_attributes].
      rewrite Hempty. repeat split; auto. now eexists. }
  destruct H1 as ((added & Hadd) & Hwf & I1 & F1 & V1 & A1).
  destruct (send_clicked i && truthy (next_comment i) && has_key i) eqn:Es.
  2:{ cbn [state]. repeat split; auto. now exists added. }
  apply andb_true_iff in Es as [_ Hk].
  destruct (generate_chat_response client _ _ _) as [response|e].
  2:{ cbn [state]. repeat split; auto. now exists added. }
  cbn [state set_chat current_chat current_image current_flowchart
       current_video current_attributes].
  repeat split; auto.
  - eexists. rewrite Hadd, <- List.app_assoc. reflexivity.
  - intros H. apply well_formed_app; [now apply Hkey | now apply Hwf].
Qed.

(** X13.  However the Master Talk screen is used, and whatever the chat
    client answers or raises, a chat that is a conversation (the system
    message first, then user and assistant messages in turn) stays one:
    a user message is never stored without its answer. *)
Theorem talk_chat_well_formed (st : session_state) (history : list inputs) :
  well_formed (current_chat st) ->
  well_formed (current_chat (talk_runs client st history)).
Proof.
  revert st. induction history as [|i history IH]; intros st H; [exact H|].
  simpl. apply IH. now apply (master_talk_step st i).
Qed.

(** X14.  The chat is append-only: after any number of runs the earlier
    chat is the beginning of the current one, and the screen changes
    nothing else in the session. *)
Theorem talk_chat_append_only (st : session_state) (history : list inputs) :
  let st' := talk_runs client st history in
  (exists added, current_chat st' = (current_chat st ++ added)%list) /\
  current_image st' = current_image st /\
  current_flowchart st' = current_flowchart st /\
  current_video st' = current_video st /\
  current_attributes st' = current_attributes st.
Proof.
  cbv zeta. revert st. induction history as [|i history IH]; intros st.
  - simpl. repeat split. exists []. now rewrite List.app_nil_r.
  - simpl.
    destruct (master_talk_step st i) as ((a1 & H1) & _ & I1 & F1 & V1 & A1).
    destruct (IH (state (master_talk client st i)))
      as ((a2 & H2) & I2 & F2 & V2 & A2).
    rewrite I2, F2, V2, A2. repeat split; auto.
    exists (a1 ++ a2)%list. now rewrite H2, H1, List.app_assoc.
Qed.

Lemma shown_turns (master : string) (chat : list (string * string)) :
  turns chat ->
  List.length (flat_map (show_message master) chat) = List.length chat.
Proof.
  induction chat as [|m|[r1 c1] [r2 c2] rest IH] using pair_ind.
  - reflexivity.
  - destruct m. intros [].
  - intros (-> & -> & H).
    change (flat_map (show_message master)
              (("user", c1) :: ("assistant", c2) :: rest))
      with (st_markdown ("**You**: " ++ c1)
            :: st_markdown ("**Master " ++ master ++ "**: " ++ c2)
            :: flat_map (show_message master) rest).
    simpl List.length. f_equal. f_equal. now apply IH.
Qed.

(** X15.  Of a conversation the screen shows every message but the system
    message: the instructions given to the model add nothing to what is
    displayed, and each user and assistant message adds one entry. *)
Theorem talk_shows_all_but_system (master : string)
    (instruction : string) (chat : list (string * string)) :
  well_formed (("system", instruction) :: chat) ->
  flat_map (show_message master) (("system", instruction) :: chat)
  = flat_map (show_message master) chat /\
  List.length (flat_map (show_message master) chat) = List.length chat.
Proof.
  intros [_ H]. split; [reflexivity | now apply shown_turns].
Qed.

End TalkFacts.

Lemma talk_chat_well_formed_echo :
  Talk.well_formed
    (Flow.current_chat
       (Talk.talk_runs echo_client armbar_session
          [ {| Talk.master_info := "Rickson Gracie"; Talk.has_key := true;
               Talk.next_comment := "How do I pass the guard?";
               Talk.send_clicked := true; Talk.flow_clicked := false |};
            {| Talk.master_info := "Rickson Gracie"; Talk.has_key := true;
               Talk.next_comment := ""; Talk.send_clicked := true;
               Talk.flow_clicked := false |} ])).
Proof.
  apply (talk_chat_well_formed echo_client armbar_session). exact I.
Defined.

Lemma talk_shows_all_but_system_echo :
  flat_map (Talk.show_message "Rickson Gracie")
    [("system", "be brief"); ("user", "hello"); ("assistant", "Osu!")]
  = flat_map (Talk.show_message "Rickson Gracie")
      [("user", "hello"); ("assistant", "Osu!")] /\
  List.length
    (flat_map (Talk.show_message "Rickson Gracie")
       [("user", "hello"); ("assistant", "Osu!")]) = 2.
Proof.
  apply (talk_shows_all_but_system "Rickson Gracie" "be brief"
           [("user", "hello"); ("assistant", "Osu!")]).
  repeat split.
Defined.

(** ** The extractor at the edges of the video *)

Section ExtractorEdges.

Import Ideal.

Context {F : Type} {PF : PyFloat F}.
Variable Frame : Type.
Variable zero : F.

Local Abbreviation env := (Ideal.env Frame zero).

Lemma slice_to_end (l : list Frame) (lo hi : Z) :
  (Z.of_nat (List.length l) - 1 <= hi)%Z ->
  slice lo hi l = skipn (Z.to_nat lo) l.
Proof.
  intros H. unfold slice. apply firstn_all2. rewrite List.length_skipn. lia.
Qed.

Lemma slice_empty (l : list Frame) (lo hi : Z) :
  (hi < lo)%Z -> slice lo hi l = [].
Proof.
  intros H. unfold slice.
  replace (Z.to_nat (hi + 1 - lo)) with 0 by lia. reflexivity.
Qed.


(** X16.  A video shorter than the requested range is not an error: when
    [end_frame] is at or past the last frame, the extractor returns [True]
    and writes every frame from [start_frame] to the end of the video
    (none when [start_frame] is past the end too). *)
Theorem extract_short_video (w : @world F Frame)
    (input_path output_path : string) (start_time end_time : F)
    (v : @video F Frame) (wd ht start_frame end_frame : Z) :
  files w input_path = Some v -> opens v = true ->
  to_int (width v) = Return wd -> to_int (height v) = Return ht ->
  to_int (fmul start_time (fps v)) = Return start_frame ->
  to_int (fmul end_time (fps v)) = Return end_frame ->
  (0 <= start_frame)%Z ->
  (Z.of_nat (List.length (frames v)) - 1 <= end_frame)%Z ->
  exists (w' : @world F Frame) (o : @writer F Frame),
    App._extract_video_segment env input_path output_path start_time end_time w
    = (Return true, w') /\
    writers w' = (writers w ++ [o])%list /\
    out_frames o = skipn (Z.to_nat start_frame) (frames v).
Proof.
  intros Hfile Hopens Hwd Hht Hsf Hef Hpos Hend.
  eexists _, _. split; [|split].
  - now apply (ideal_extract_run Frame zero w input_path output_path
                 start_time end_time v wd ht start_frame end_frame).
  - reflexivity.
  - cbn [out_frames]. now apply slice_to_end.
Qed.

(** X17.  A range whose end frame comes before its start frame is not
    rejected: the extractor returns [True] and leaves an output with no
    frame in it. *)
Theorem extract_empty_range (w : @world F Frame)
    (input_path output_path : string) (start_time end_time : F)
    (v : @video F Frame) (wd ht start_frame end_frame : Z) :
  files w input_path = Some v -> opens v = true ->
  to_int (width v) = Return wd -> to_int (height v) = Return ht ->
  to_int (fmul start_time (fps v)) = Return start_frame ->
  to_int (fmul end_time (fps v)) = Return end_frame ->
  (0 <= start_frame)%Z -> (end_frame < start_frame)%Z ->
  exists (w' : @world F Frame) (o : @writer F Frame),
    App._extract_video_segment env input_path output_path start_time end_time w
    = (Return true, w') /\
    writers w' = (writers w ++ [o])%list /\
    out_path o = output_path /\
    out_frames o = [].
Proof.
  intros Hfile Hopens Hwd Hht Hsf Hef Hpos Hend.
  eexists _, _. split; [|split; [|split]].
  - now apply (ideal_extract_run Frame zero w input_path output_path
                 start_time end_time v wd ht start_frame end_frame).
  - reflexivity.
  - reflexivity.
  - cbn [out_frames]. now apply slice_empty.
Qed.


(** The files created by writers other than a new one at [output_path]
    are the same. *)
Lemma existsb_out_path_snoc (path : string) (ws : list (@writer F Frame))
    (o : @writer F Frame) :
  path <> out_path o ->
  existsb (fun o' => String.eqb path (out_path o')) (ws ++ [o])
  = existsb (fun o' => String.eqb path (out_path o')) ws.
Proof.
  intros H. rewrite existsb_app. cbn [existsb].
  apply String.eqb_neq in H. rewrite H. now rewrite !orb_false_r.
Qed.

(** X19.  A successful extraction opens one capture and creates one
    writer, at [output_path], releases both, and does nothing else: the
    captures and writers that existed are as before, nothing is printed,
    nothing is removed, no AI call is made, and no path other than
    [output_path] starts or stops being a file on disk. *)
Theorem extract_leaves_world (w : @world F Frame)
    (input_path output_path : string) (start_time end_time : F)
    (v : @video F Frame) (wd ht start_frame end_frame : Z) :
  files w input_path = Some v -> opens v = true ->
  to_int (width v) = Return wd -> to_int (height v) = Return ht ->
  to_int (fmul start_time (fps v)) = Return start_frame ->
  to_int (fmul end_time (fps v)) = Return end_frame ->
  (0 <= start_frame)%Z ->
  exists (w' : @world F Frame) (c : @capture F Frame) (o : @writer F Frame),
    App._extract_video_segment env input_path output_path start_time end_time w
    = (Return true, w') /\
    captures w' = (captures w ++ [c])%list /\
    writers w' = (writers w ++ [o])%list /\
    out_path o = output_path /\
    cap_open c = false /\ out_open o = false /\
    stdout w' = stdout w /\ removed w' = removed w /\
    analysed w' = analysed w /\
    (forall path, path <> output_path -> on_disk w' path = on_disk w path).
Proof.
  intros Hfile Hopens Hwd Hht Hsf Hef Hpos.
  eexists _, _, _. split.
  - now apply (ideal_extract_run Frame zero w input_path output_path
                 start_time end_time v wd ht start_frame end_frame).
  - do 8 (split; [reflexivity|]).
    intros path Hpath. unfold on_disk.
    cbn [files removed writers set_writers set_captures].
    now rewrite existsb_out_path_snoc.
Qed.

End ExtractorEdges.

Section EdgeRuns.

Import Ideal.

Lemma extract_short_video_clip :
  exists (w' : world nat) (o : writer nat),
    App._extract_video_segment ideal_env "match.mp4" "match_subset.mp4"
      one_and_a_half (Float64.of_Z 5) fresh_world = (Return true, w') /\
    writers w' = (writers fresh_world ++ [o])%list /\
    out_frames o = skipn 45 (frames clip).
Proof.
  apply (extract_short_video nat (Float64.of_Z 0) fresh_world
           "match.mp4" "match_subset.mp4" one_and_a_half (Float64.of_Z 5)
           clip 640 480 45 150); try reflexivity.
  - lia.
  - simpl. lia.
Defined.

Lemma extract_empty_range_clip :
  exists (w' : world nat) (o : writer nat),
    App._extract_video_segment ideal_env "match.mp4" "match_subset.mp4"
      one_and_a_half half_second fresh_world = (Return true, w') /\
    writers w' = (writers fresh_world ++ [o])%list /\
    out_path o = "match_subset.mp4" /\
    out_frames o = [].
Proof.
  apply (extract_empty_range nat (Float64.of_Z 0) fresh_world
           "match.mp4" "match_subset.mp4" one_and_a_half half_second
           clip 640 480 45 15); try reflexivity; lia.
Defined.


Lemma extract_leaves_world_clip :
  exists (w' : world nat) (c : capture nat) (o : writer nat),
    App._extract_video_segment ideal_env "match.mp4" "match_subset.mp4"
      half_second one_and_a_half fresh_world = (Return true, w') /\
    captures w' = (captures fresh_world ++ [c])%list /\
    writers w' = (writers fresh_world ++ [o])%list /\
    out_path o = "match_subset.mp4" /\
    cap_open c = false /\ out_open o = false /\
    stdout w' = stdout fresh_world /\ removed w' = removed fresh_world /\
    analysed w' = analysed fresh_world /\
    (forall path, path <> "match_subset.mp4" ->
                  on_disk w' path = on_disk fresh_world path).
Proof.
  apply (extract_leaves_world nat (Float64.of_Z 0) fresh_world
           "match.mp4" "match_subset.mp4" half_second one_and_a_half
           clip 640 480 15 45); try reflexivity; lia.
Defined.

End EdgeRuns.

(** ** [analyze_grappling_match] *)

Section AnalyzeAnyEnv.

Import App.

Context {F : Type} {PF : PyFloat F} {W Cap Writer Frame : Type}.
Variable env : @Env F W Cap Writer Frame.

(** X20.  Unless both times are given, nothing is extracted and nothing
    is cleaned up: the run of [analyze_grappling_match] is the run of the
    AI call on the original video, a time given alone being ignored. *)
Theorem analyze_without_times (video_path player_variable : string)
    (isMMA : bool) (keywords : string) (start_time end_time : option F)
    (w : W) :
  start_time = None \/ end_time = None ->
  analyze_grappling_match env video_path player_variable isMMA keywords
    start_time end_time w
  = video_description env video_path
      (analyze_grappling_match_prompt player_variable isMMA keywords) w.
Proof.
  intros H.
  assert (E : analyze_grappling_match env video_path player_variable isMMA
                keywords start_time end_time w
              = mbind (video_description env video_path
                         (analyze_grappling_match_prompt player_variable isMMA
                            keywords))
                  (fun response =>
                     mbind (fun w =>
                              if negb (String.eqb video_path video_path)
                                 && path_exists env video_path w
                              then try_except (os_remove env video_path)
                                     (fun _ => ret tt) w
                              else ret tt w)
                           (fun _ => ret response)) w).
  { destruct start_time, end_time; destruct H as [H|H]; try discriminate;
      reflexivity. }
  rewrite E. unfold mbind, ret. rewrite String.eqb_refl. cbn [negb andb].
  now destruct (video_description env video_path _ w) as [[response|e] w1].
Qed.

(** X21.  Whatever the extractor and the cleanup do, what
    [analyze_grappling_match] returns or raises is what the AI call on
    the analysed path returned or raised: a failure to delete the trimmed
    copy never loses the answer, and a failed extraction never stops the
    call. *)
Theorem analyze_returns_the_answer (video_path player_variable : string)
    (isMMA : bool) (keywords : string) (start_time end_time : option F)
    (w : W) :
  exists w1 : W,
    fst (analyze_grappling_match env video_path player_variable isMMA
           keywords start_time end_time w)
    = fst (video_description env
             (analysed_path video_path start_time end_time)
             (analyze_grappling_match_prompt player_variable isMMA keywords)
             w1).
Proof.
  assert (Hclean : forall (path : string) (response : string) (w1 : W),
             fst (mbind (fun w =>
                           if negb (String.eqb path video_path)
                              && path_exists env path w
                           then try_except (os_remove env path)
                                  (fun _ => ret tt) w
                           else ret tt w)
                        (fun _ => ret response) w1) = Return response).
  { intros path response w1. unfold mbind, try_except, ret.
    destruct (negb (String.eqb path video_path) && path_exists env path w1);
      [|reflexivity].
    now destruct (os_remove env path w1) as [[[]|e] w2]. }
  destruct start_time as [start_time|], end_time as [end_time|];
    try (exists w; unfold analyze_grappling_match, analysed_path;
         unfold mbind at 1 2; unfold ret at 1;
         destruct (video_description env video_path _ w) as [[response|e] w1];
         [apply Hclean | reflexivity]).
  destruct (analyze_ignores_extraction env video_path player_variable isMMA
              keywords start_time end_time w) as (b & w1 & _ & E).
  exists w1. rewrite E. unfold analysed_path, subset_path.
  unfold mbind at 1.
  destruct (video_description env _ _ w1) as [[response|e] w2];
    [apply Hclean | reflexivity].
Qed.

End AnalyzeAnyEnv.

Section AnalyzeIdeal.

Import Ideal.

Context {F : Type} {PF : PyFloat F}.
Variable Frame : Type.
Variable zero : F.

Local Abbreviation env := (Ideal.env Frame zero).

Lemma existsb_snoc {A : Type} (f : A -> bool) (l : list A) (x : A) :
  existsb f (l ++ [x]) = existsb f l || f x.
Proof. rewrite existsb_app. simpl. now rewrite orb_false_r. Qed.

Lemma subset_path_neq (video_path : string) :
  String.eqb (subset_path video_path) video_path = false.
Proof. apply String.eqb_neq. apply subset_path_differs. Qed.

(** The world after the extraction and the AI call on the trimmed copy. *)
Lemma analyze_segment_run (w : @world F Frame)
    (video_path player_variable : string) (isMMA : bool) (keywords : string)
    (start_time end_time : F) (v : @video F Frame)
    (wd ht start_frame end_frame : Z) :
  files w video_path = Some v -> opens v = true ->
  to_int (width v) = Return wd -> to_int (height v) = Return ht ->
  to_int (fmul start_time (fps v)) = Return start_frame ->
  to_int (fmul end_time (fps v)) = Return end_frame ->
  (0 <= start_frame)%Z ->
  existsb (String.eqb (subset_path video_path)) (removed w) = false ->
  let prompt := App.analyze_grappling_match_prompt player_variable isMMA
                  keywords in
  let subset := subset_path video_path in
  exists w2 : @world F Frame,
    files w2 = files w /\
    removed w2 = removed w /\
    analysed w2 = (analysed w ++ [(subset, prompt)])%list /\
    on_disk w2 subset = true /\
    App.analyze_grappling_match env video_path player_variable isMMA keywords
      (Some start_time) (Some end_time) w
    = match service w subset prompt with
      | Return response =>
          (Return response,
           {| files := files w2; captures := captures w2;
              writers := writers w2; stdout := stdout w2;
              removed := removed w2 ++ [subset];
              service := service w2; analysed := analysed w2 |})
      | Raise e => (Raise e, w2)
      end.
Proof.
  intros Hfile Hopens Hwd Hht Hsf Hef Hpos Hrem prompt subset.
  unfold App.analyze_grappling_match. fold (subset_path video_path).
  fold subset. fold prompt.
  unfold App.mbind at 1 2.
  rewrite (ideal_extract_run Frame zero w video_path subset start_time end_time
             v wd ht start_frame end_frame) by assumption.
  unfold App.ret at 1. unfold App.mbind at 1.
  cbn [App.video_description Ideal.env].
  cbn [files captures writers stdout removed service analysed
       set_captures set_writers].
  eexists {| files := files w; captures := _; writers := _; stdout := stdout w;
             removed := removed w; service := service w;
             analysed := analysed w ++ [(subset, prompt)] |}.
  cbn [files captures writers stdout removed service analysed].
  assert (Hdisk : forall cs,
             @on_disk F Frame
               {| files := files w; captures := cs;
                  writers := writers w ++
                    [{| out_path := subset; out_fourcc := fourcc "mp4v";
                        out_fps := fps v; out_size := (wd, ht);
                        out_frames := slice start_frame end_frame (frames v);
                        out_open := false |}];
                  stdout := stdout w; removed := removed w;
                  service := service w;
                  analysed := analysed w ++ [(subset, prompt)] |} subset
             = true).
  { intros cs. unfold on_disk.
    cbn [files writers removed]. unfold subset. rewrite Hrem.
    destruct (files w (subset_path video_path)); [reflexivity|].
    rewrite existsb_snoc. cbn [out_path]. rewrite String.eqb_refl.
    now rewrite orb_true_r. }
  repeat split; [apply Hdisk|].
  destruct (service w subset prompt) as [response|e]; [|reflexivity].
  unfold App.mbind at 1.
  cbn [App.path_exists Ideal.env]. rewrite Hdisk.
  unfold subset at 1. rewrite subset_path_neq. cbn [negb andb].
  unfold App.try_except. cbn [App.os_remove Ideal.env].
  reflexivity.
Qed.

(** X22.  With both times given, a video that opens and an AI call that
    answers, the trimmed copy is what is analysed, it is deleted
    afterwards, and the original video is kept: the answer is returned,
    the copy is no longer on disk and the original is on disk as
    before. *)
Theorem analyze_segment_cleanup (w : @world F Frame)
    (video_path player_variable : string) (isMMA : bool) (keywords : string)
    (start_time end_time : F) (v : @video F Frame)
    (wd ht start_frame end_frame : Z) (response : string) :
  files w video_path = Some v -> opens v = true ->
  to_int (width v) = Return wd -> to_int (height v) = Return ht ->
  to_int (fmul start_time (fps v)) = Return start_frame ->
  to_int (fmul end_time (fps v)) = Return end_frame ->
  (0 <= start_frame)%Z ->
  existsb (String.eqb (subset_path video_path)) (removed w) = false ->
  service w (subset_path video_path)
    (App.analyze_grappling_match_prompt player_variable isMMA keywords)
  = Return response ->
  exists w' : @world F Frame,
    App.analyze_grappling_match env video_path player_variable isMMA keywords
      (Some start_time) (Some end_time) w = (Return response, w') /\
    analysed w' =
    (analysed w ++
     [(subset_path video_path,
       App.analyze_grappling_match_prompt player_variable isMMA keywords)])%list /\
    on_disk w' (subset_path video_path) = false /\
    on_disk w' video_path = on_disk w video_path.
Proof.
  intros Hfile Hopens Hwd Hht Hsf Hef Hpos Hrem Hanswer.
  destruct (analyze_segment_run w video_path player_variable isMMA keywords
              start_time end_time v wd ht start_frame end_frame
              Hfile Hopens Hwd Hht Hsf Hef Hpos Hrem)
    as (w2 & Hf & Hr & Ha & Hd & E).
  rewrite Hanswer in E. eexists. split; [exact E|].
  cbn [analysed]. split; [exact Ha|]. split.
  - unfold on_disk. cbn [files writers removed].
    rewrite existsb_snoc, String.eqb_refl, orb_true_r. cbn [negb].
    rewrite andb_false_r. now destruct (files w2 (subset_path video_path)).
  - unfold on_disk. cbn [files removed]. rewrite Hf, Hfile, Hr.
    rewrite existsb_snoc.
    rewrite (String.eqb_sym video_path), subset_path_neq.
    now rewrite orb_false_r.
Qed.

(** X23.  When the AI call on the trimmed copy raises, the exception goes
    to the caller and the cleanup is not reached: the trimmed copy stays
    on disk. *)
Theorem analyze_failure_leaves_subset (w : @world F Frame)
    (video_path player_variable : string) (isMMA : bool) (keywords : string)
    (start_time end_time : F) (v : @video F Frame)
    (wd ht start_frame end_frame : Z) (e : exn) :
  files w video_path = Some v -> opens v = true ->
  to_int (width v) = Return wd -> to_int (height v) = Return ht ->
  to_int (fmul start_time (fps v)) = Return start_frame ->
  to_int (fmul end_time (fps v)) = Return end_frame ->
  (0 <= start_frame)%Z ->
  existsb (String.eqb (subset_path video_path)) (removed w) = false ->
  service w (subset_path video_path)
    (App.analyze_grappling_match_prompt player_variable isMMA keywords)
  = Raise e ->
  exists w' : @world F Frame,
    App.analyze_grappling_match env video_path player_variable isMMA keywords
      (Some start_time) (Some end_time) w = (Raise e, w') /\
    removed w' = removed w /\
    on_disk w' (subset_path video_path) = true.
Proof.
  intros Hfile Hopens Hwd Hht Hsf Hef Hpos Hrem Hanswer.
  destruct (analyze_segment_run w video_path player_variable isMMA keywords
              start_time end_time v wd ht start_frame end_frame
              Hfile Hopens Hwd Hht Hsf Hef Hpos Hrem)
    as (w2 & Hf & Hr & Ha & Hd & E).
  rewrite Hanswer in E. exists w2. now repeat split.
Qed.

End AnalyzeIdeal.

Section AnalyzeRuns.

Import Ideal.

Lemma analyze_segment_cleanup_clip :
  exists w' : world nat,
    App.analyze_grappling_match ideal_env "match.mp4" "top" true ""
      (Some half_second) (Some one_and_a_half) fresh_world
    = (Return "analysis", w') /\
    analysed w' =
    (analysed fresh_world ++
     [(subset_path "match.mp4",
       App.analyze_grappling_match_prompt "top" true "")])%list /\
    on_disk w' (subset_path "match.mp4") = false /\
    on_disk w' "match.mp4" = on_disk fresh_world "match.mp4".
Proof.
  apply (analyze_segment_cleanup nat (Float64.of_Z 0) fresh_world
           "match.mp4" "top" true "" half_second one_and_a_half clip
           640 480 15 45 "analysis"); try reflexivity; lia.
Defined.

Lemma analyze_failure_leaves_subset_clip :
  exists w' : world nat,
    App.analyze_grappling_match ideal_env "match.mp4" "top" true ""
      (Some half_second) (Some one_and_a_half) offline_world
    = (Raise (ServiceError "service unavailable"), w') /\
    removed w' = removed offline_world /\
    on_disk w' (subset_path "match.mp4") = true.
Proof.
  apply (analyze_failure_leaves_subset nat (Float64.of_Z 0) offline_world
           "match.mp4" "top" true "" half_second one_and_a_half clip
           640 480 15 45 (ServiceError "service unavailable"));
    try reflexivity; lia.
Defined.

Lemma analyze_without_times_clip :
  App.analyze_grappling_match ideal_env "match.mp4" "top" true ""
    (Some half_second) None fresh_world
  = App.video_description ideal_env "match.mp4"
      (App.analyze_grappling_match_prompt "top" true "") fresh_world.
Proof.
  apply (analyze_without_times ideal_env "match.mp4" "top" true ""
           (Some half_second) None fresh_world).
  now right.
Defined.

End AnalyzeRuns.

(** ** The path of the trimmed copy *)

Section SubsetPath.

Import PosixPath.

Lemma rfind_bounds (c : ascii) (s : string) :
  (-1 <= rfind c s < Z.of_nat (String.length s))%Z.
Proof.
  induction s as [|x s IH]; simpl String.length; cbn [rfind]; [lia|].
  destruct (Z.leb_spec 0 (rfind c s)); [lia|].
  destruct (Ascii.eqb x c); lia.
Qed.

Lemma rfind_app (c : ascii) (a b : string) :
  rfind c (a ++ b) =
  if (0 <=? rfind c b)%Z
  then (Z.of_nat (String.length a) + rfind c b)%Z
  else rfind c a.
Proof.
  induction a as [|x a IH].
  - simpl. destruct (Z.leb_spec 0 (rfind c b)); [lia|].
    pose proof (rfind_bounds c b). lia.
  - change (rfind c (String x a ++ b))
      with (let r := rfind c (a ++ b) in
            if (0 <=? r)%Z then (r + 1)%Z
            else if Ascii.eqb x c then 0%Z else (-1)%Z).
    cbv zeta. rewrite IH.
    destruct (Z.leb_spec 0 (rfind c b)).
    + destruct (Z.leb_spec 0 (Z.of_nat (String.length a) + rfind c b)); [|lia].
      simpl String.length. lia.
    + reflexivity.
Qed.

Lemma length_take (n : nat) (s : string) :
  String.length (take n s) = Nat.min n (String.length s).
Proof.
  revert s; induction n as [|n IH]; intros [|x s]; simpl; try reflexivity.
  now rewrite IH.
Qed.

Lemma length_drop (n : nat) (s : string) :
  String.length (drop n s) = String.length s - n.
Proof.
  revert s; induction n as [|n IH]; intros [|x s]; simpl; try reflexivity.
  apply IH.
Qed.

Lemma take_app_le (n : nat) (a b : string) :
  n <= String.length a -> take n (a ++ b) = take n a.
Proof.
  revert a; induction n as [|n IH]; intros [|x a] H; simpl in *;
    try reflexivity; try lia.
  f_equal. apply IH. lia.
Qed.

Lemma take_all (s : string) : take (String.length s) s = s.
Proof. induction s as [|x s IH]; simpl; [reflexivity | now rewrite IH]. Qed.

Lemma take_app_exact (a b : string) : take (String.length a) (a ++ b) = a.
Proof. rewrite take_app_le by lia. apply take_all. Qed.

Lemma drop_app_le (n : nat) (a b : string) :
  n <= String.length a -> drop n (a ++ b) = drop n a ++ b.
Proof.
  revert a; induction n as [|n IH]; intros [|x a] H; simpl in *;
    try reflexivity; try lia.
  apply IH. lia.
Qed.

Lemma has_other_app (c : ascii) (a b : string) :
  has_other c (a ++ b) = has_other c a || has_other c b.
Proof.
  induction a as [|x a IH]; [reflexivity|]. simpl. rewrite IH.
  now rewrite orb_assoc.
Qed.

Lemma rfind_take_drop (c : ascii) (k : nat) (p : string) :
  rfind c p =
  if (0 <=? rfind c (drop k p))%Z
  then (Z.of_nat (Nat.min k (String.length p)) + rfind c (drop k p))%Z
  else rfind c (take k p).
Proof.
  rewrite <- (take_drop k p) at 1. rewrite rfind_app. now rewrite length_take.
Qed.

Lemma rfind_drop_none (c : ascii) (k : nat) (p : string) :
  (rfind c p < Z.of_nat k)%Z -> k <= String.length p ->
  rfind c (drop k p) = (-1)%Z.
Proof.
  intros H Hk. pose proof (rfind_take_drop c k p) as E.
  pose proof (rfind_bounds c (drop k p)).
  destruct (Z.leb_spec 0 (rfind c (drop k p))); lia.
Qed.

Lemma rfind_take (c : ascii) (k : nat) (p : string) :
  (rfind c p < Z.of_nat k)%Z -> k <= String.length p ->
  rfind c (take k p) = rfind c p.
Proof.
  intros H Hk. pose proof (rfind_take_drop c k p) as E.
  rewrite (rfind_drop_none c k p H Hk) in E. now rewrite E.
Qed.

Lemma rfind_drop_at (c : ascii) (p : string) :
  (0 <= rfind c p)%Z -> rfind c (drop (Z.to_nat (rfind c p)) p) = 0%Z.
Proof.
  intros H. pose proof (rfind_bounds c p) as B.
  pose proof (rfind_take_drop c (Z.to_nat (rfind c p)) p) as E.
  pose proof (rfind_bounds c (drop (Z.to_nat (rfind c p)) p)) as B1.
  pose proof (rfind_bounds c (take (Z.to_nat (rfind c p)) p)) as B2.
  rewrite length_take in B2.
  destruct (Z.leb_spec 0 (rfind c (drop (Z.to_nat (rfind c p)) p))); lia.
Qed.

(** The trimmed copy's path splits into the video's root followed by
    [_subset], and the video's extension. *)
Lemma splitext_subset (p : string) :
  splitext (subset_path p)
  = (fst (splitext p) ++ "_subset", snd (splitext p)).
Proof.
  unfold subset_path.
  pose proof (rfind_bounds "/" p) as Bs. pose proof (rfind_bounds "." p) as Bd.
  destruct (splitext p) as [root ext] eqn:E. cbn [fst snd].
  unfold splitext in E.
  destruct (Z.ltb_spec (rfind "/" p) (rfind "." p)) as [Hlt|Hge].
  - set (fn := Z.to_nat (rfind "/" p + 1)) in *.
    set (d := Z.to_nat (rfind "." p)) in *.
    assert (Hfn : fn <= d) by lia.
    assert (Hd : d < String.length p) by lia.
    destruct (has_other "." (take (d - fn) (drop fn p))) eqn:Ho;
      injection E as <- <-.
    + (* an extension *)
      assert (Lroot : String.length (take d p) = d)
        by (rewrite length_take; lia).
      assert (Es : rfind "/" (take d p ++ "_subset" ++ drop d p) = rfind "/" p).
      { rewrite rfind_app, (rfind_app "/" "_subset").
        rewrite (rfind_drop_none "/" d p) by lia.
        cbn. apply rfind_take; lia. }
      assert (Ed : rfind "." (take d p ++ "_subset" ++ drop d p)
                   = Z.of_nat (d + 7)).
      { assert (E0 : rfind "." (drop d p) = 0%Z)
          by (apply rfind_drop_at; lia).
        rewrite rfind_app, (rfind_app "." "_subset"), E0, Lroot.
        change (String.length "_subset") with 7.
        change (0 <=? 0)%Z with true. cbv iota.
        change (0 <=? Z.of_nat 7 + 0)%Z with true. cbv iota. lia. }
      unfold splitext. rewrite Es, Ed.
      destruct (Z.ltb_spec (rfind "/" p) (Z.of_nat (d + 7))); [|lia].
      fold fn. rewrite Nat2Z.id.
      rewrite drop_app_le by lia.
      replace (d + 7 - fn) with (String.length (drop fn (take d p) ++ "_subset"))
        by (rewrite length_app, length_drop, Lroot; simpl; lia).
      rewrite <- app_assoc, take_app_exact, has_other_app.
      change (has_other "." "_subset") with true. rewrite orb_true_r.
      replace (d + 7) with (String.length (take d p ++ "_subset"))
        by (rewrite length_app, Lroot; reflexivity).
      rewrite <- app_assoc, take_app_exact, drop_app. reflexivity.
    + (* only leading dots *)
      change ("_subset" ++ "") with "_subset".
      assert (Es : rfind "/" (p ++ "_subset") = rfind "/" p)
        by (rewrite rfind_app; reflexivity).
      assert (Ed : rfind "." (p ++ "_subset") = rfind "." p)
        by (rewrite rfind_app; reflexivity).
      unfold splitext. rewrite Es, Ed.
      destruct (Z.ltb_spec (rfind "/" p) (rfind "." p)); [|lia].
      fold fn d. rewrite drop_app_le by lia.
      rewrite take_app_le by (rewrite length_drop; lia).
      now rewrite Ho.
  - injection E as <- <-. change ("_subset" ++ "") with "_subset".
    assert (Es : rfind "/" (p ++ "_subset") = rfind "/" p)
      by (rewrite rfind_app; reflexivity).
    assert (Ed : rfind "." (p ++ "_subset") = rfind "." p)
      by (rewrite rfind_app; reflexivity).
    unfold splitext. rewrite Es, Ed.
    destruct (Z.ltb_spec (rfind "/" p) (rfind "." p)); [lia | reflexivity].
Qed.

(** X24.  The trimmed copy never takes the place of the video: its path
    differs from the video's path, and it keeps the video's extension
    ([splitext] of it gives the video's root followed by [_subset], and
    the video's extension). *)
Theorem subset_path_fresh (video_path : string) :
  subset_path video_path <> video_path /\
  splitext (subset_path video_path)
  = (fst (splitext video_path) ++ "_subset", snd (splitext video_path)).
Proof. split; [apply subset_path_differs | apply splitext_subset]. Qed.

End SubsetPath.

(** *** The two copies of the prompt builders *)

Section PromptCopies.

Import PyStr.

(** X25.  [app.py] carries its own copies of [generate_grappling_plan] and
    of the match analysis; their prompts are those of the imported
    functions with the first letter in upper case, whatever the player,
    the ruleset and the keywords. *)
Theorem prompt_copies_agree (player_variable keywords : string)
    (isMMA : bool) :
  App.generate_grappling_plan_prompt player_variable isMMA keywords
  = "T" ++ drop 1 (Functions.generate_grappling_plan_prompt
                     player_variable isMMA keywords) /\
  App.analyze_grappling_match_prompt player_variable isMMA keywords
  = "T" ++ drop 1 (Functions.analyse_grappling_match_prompt
                     player_variable isMMA keywords).
Proof.
  unfold App.generate_grappling_plan_prompt, App.analyze_grappling_match_prompt,
    Functions.generate_grappling_plan_prompt,
    Functions.analyse_grappling_match_prompt, App.match_type,
    Functions.match_type.
  cbv zeta. destruct (truthy keywords), isMMA; split; reflexivity.
Qed.

End PromptCopies.
